(** * ocr_to_json: a shallow embedding of gracie-exam-prep/ocr_to_json.py

    The development follows the layout of the script: the built-in string
    operations it relies on, the QA splitter [split_question_answer], the
    path collector [collect_image_paths] over a [pathlib]-like interface, and
    the effectful pipeline ([ensure_tesseract_available], [run_ocr],
    [build_questions], [main]) in a small trace-and-exception monad.

    Text model.  A Python [str] is modelled by [string]; every [ascii] stands
    for the code point of the same number (U+0000 .. U+00FF).  On that range
    [str.isspace], the line boundaries of [str.splitlines] and [str.lower]
    are the finite tables written out below. *)

From Stdlib Require Import Bool Arith Lia List NArith ZArith.
From Stdlib Require Import Ascii String.
From Stdlib Require Import Permutation Sorted.
Import ListNotations.

Local Open Scope string_scope.
Local Open Scope list_scope.

Set Implicit Arguments.
Set Warnings "-register-all".

(* ================================================================== *)
(** * Part I: definitions *)
(* ================================================================== *)

(** ** Built-in string operations *)

Module PyStr.

(** [c.isspace()] for a code point below 256: TAB..CR, FS..US, SPACE,
    NEL (0x85) and NBSP (0xa0). *)
Definition isspace (c : ascii) : bool :=
  let n := N_of_ascii c in
  ((9 <=? n) && (n <=? 13) || (28 <=? n) && (n <=? 32)
   || (n =? 133) || (n =? 160))%N.

(** The line boundaries [str.splitlines] splits on, below 256: LF, VT, FF,
    CR, FS, GS, RS and NEL.  US (0x1f) is white space but no boundary. *)
Definition is_linebreak (c : ascii) : bool :=
  let n := N_of_ascii c in
  ((10 <=? n) && (n <=? 13) || (28 <=? n) && (n <=? 30) || (n =? 133))%N.

(** [c.lower()]: A..Z and the Latin-1 capitals 0xc0..0xde (0xd7, the
    multiplication sign, apart) move up by 32; everything else stays. *)
Definition lower_char (c : ascii) : ascii :=
  let n := N_of_ascii c in
  if ((65 <=? n) && (n <=? 90)
      || (192 <=? n) && (n <=? 222) && negb (n =? 215))%N
  then ascii_of_N (n + 32) else c.

Fixpoint lower (s : string) : string :=
  match s with
  | EmptyString => EmptyString
  | String c r => String (lower_char c) (lower r)
  end.

Fixpoint lstrip (s : string) : string :=
  match s with
  | EmptyString => EmptyString
  | String c r => if isspace c then lstrip r else s
  end.

Fixpoint rstrip (s : string) : string :=
  match s with
  | EmptyString => EmptyString
  | String c r =>
      match rstrip r with
      | EmptyString => if isspace c then EmptyString else String c EmptyString
      | r' => String c r'
      end
  end.

(** [s.strip()] *)
Definition strip (s : string) : string := rstrip (lstrip s).

(** [s.startswith(p)] *)
Definition startswith (s p : string) : bool := String.prefix p s.

(** [s[n:]] *)
Fixpoint slice_from (n : nat) (s : string) : string :=
  match n, s with
  | O, _ => s
  | S _, EmptyString => EmptyString
  | S m, String _ r => slice_from m r
  end.

(** [sep.join(parts)] *)
Definition join (sep : string) (parts : list string) : string :=
  String.concat sep parts.

(** Truth value of a string: non-empty. *)
Definition truthy (s : string) : bool :=
  match s with EmptyString => false | String _ _ => true end.

Definition CR : ascii := ascii_of_N 13.
Definition LF : ascii := ascii_of_N 10.

(** [s.splitlines()]: a boundary ends the current line, CR LF counts as
    one boundary, and no empty line is produced after a final boundary. *)
Fixpoint splitlines (s : string) : list string :=
  match s with
  | EmptyString => []
  | String c rest =>
      if is_linebreak c then
        EmptyString ::
          match rest with
          | String d rest' =>
              if Ascii.eqb c CR && Ascii.eqb d LF
              then splitlines rest' else splitlines rest
          | EmptyString => splitlines rest
          end
      else
        match splitlines rest with
        | [] => [String c EmptyString]
        | l :: ls => String c l :: ls
        end
  end.

End PyStr.
Import PyStr.

(** ** The QA splitter *)

Definition answer_markers : list string := ["answer:"; "ans:"; "a:"].
Definition question_markers : list string := ["question:"; "q:"; "q."].

(** [[line.strip() for line in text.splitlines() if line.strip()]] *)
Definition stripped_lines (text : string) : list string :=
  map strip (filter (fun line => truthy (strip line)) (splitlines text)).

(** The inner [for marker in ...: if lower_line.startswith(marker)]: the
    first marker of the tuple the line starts with. *)
Fixpoint first_marker (markers : list string) (lower_line : string)
  : option string :=
  match markers with
  | [] => None
  | marker :: ms =>
      if startswith lower_line marker then Some marker
      else first_marker ms lower_line
  end.

(** The body run at the first hit of the answer loop (lines 53-59). *)
Definition answer_split (lines : list string) (idx : nat) (marker : string)
  : string * string :=
  let answer_first_line :=
    strip (slice_from (String.length marker) (nth idx lines "")) in
  let answer_parts :=
    (if truthy answer_first_line then [answer_first_line] else [])
      ++ skipn (S idx) lines in
  let question_text := strip (join " " (firstn idx lines)) in
  (question_text, strip (join " " answer_parts)).

(** [for idx, lower_line in enumerate(lower_lines)], with the early return. *)
Fixpoint answer_loop (lines : list string) (idx : nat)
  (lower_rest : list string) : option (string * string) :=
  match lower_rest with
  | [] => None
  | lower_line :: rest =>
      match first_marker answer_markers lower_line with
      | Some marker => Some (answer_split lines idx marker)
      | None => answer_loop lines (S idx) rest
      end
  end.

(** [for marker in ("question:", "q:", "q."): ...; break] (lines 63-67). *)
Fixpoint question_loop (markers : list string) (question_line : string)
  : string :=
  match markers with
  | [] => question_line
  | marker :: ms =>
      if startswith (lower question_line) marker then
        let trimmed := strip (slice_from (String.length marker) question_line) in
        if truthy trimmed then trimmed else question_line
      else question_loop ms question_line
  end.

Definition split_question_answer (text : string) : string * string :=
  let lines := stripped_lines text in
  match lines with
  | [] => ("", "")
  | line0 :: others =>
      let lower_lines := map lower lines in
      match answer_loop lines 0 lower_lines with
      | Some result => result
      | None =>
          if (1 <? List.length lines)%nat then
            (question_loop question_markers line0, strip (join " " others))
          else (line0, "")
      end
  end.

(** ** [sorted] *)

(** [sorted(xs)] is a stable sort that only asks [<] of the elements; equal
    elements keep their order.  Insertion from the right is such a sort. *)
Section Sorted.
Variable A : Type.
Variable ltb : A -> A -> bool.

Fixpoint insert_sorted (x : A) (xs : list A) : list A :=
  match xs with
  | [] => [x]
  | y :: rest =>
      if ltb y x then y :: insert_sorted x rest else x :: xs
  end.

Fixpoint sorted_with (xs : list A) : list A :=
  match xs with
  | [] => []
  | x :: rest => insert_sorted x (sorted_with rest)
  end.
End Sorted.

(** ** Paths, as [pathlib] on POSIX presents them *)

Module Pathlib.

(** A path is its tuple of parts ([PurePosixPath.parts]): the root, when
    the path has one, is the first part ("/" or "//"); the names follow. *)
Definition Path : Type := list string.

(** [s.split("/")] *)
Fixpoint split_slash (s : string) : list string :=
  match s with
  | EmptyString => [EmptyString]
  | String c rest =>
      if Ascii.eqb c "/" then EmptyString :: split_slash rest
      else match split_slash rest with
           | [] => [String c EmptyString]
           | part :: parts => String c part :: parts
           end
  end.

(** The root of a raw string: exactly two leading slashes are kept as
    "//", any other positive number of them is "/". *)
Definition root_of (raw : string) : list string :=
  match raw with
  | String "/" (String "/" (String "/" _)) => ["/"]
  | String "/" (String "/" _) => ["//"]
  | String "/" _ => ["/"]
  | _ => []
  end.

Definition is_name (part : string) : bool :=
  truthy part && negb (String.eqb part ".").

(** [Path(raw)]: empty components and "." components are dropped, ".."
    is kept. *)
Definition parse (raw : string) : Path :=
  root_of raw ++ filter is_name (split_slash raw).

(** The path has a root. *)
Definition anchored (p : Path) : bool :=
  match p with
  | first :: _ => startswith first "/"
  | [] => false
  end.

(** [path.name]: the last part, unless the path is empty or only a root. *)
Definition name (p : Path) : string :=
  if Nat.eqb (List.length p) (if anchored p then 1 else 0) then ""
  else last p "".

(** [s.rfind(c)]: the highest index of [c] in [s], or -1. *)
Fixpoint rfind_from (s : string) (c : ascii) (pos found : Z) : Z :=
  match s with
  | EmptyString => found
  | String d rest =>
      rfind_from rest c (pos + 1) (if Ascii.eqb d c then pos else found)
  end.

Definition rfind (s : string) (c : ascii) : Z := rfind_from s c 0 (-1).

(** [path.suffix]: from the last dot of the name on, provided that dot is
    neither the first nor the last character of the name. *)
Definition suffix (p : Path) : string :=
  let name := name p in
  let i := rfind name "." in
  if ((0 <? i) && (i <? Z.of_nat (String.length name) - 1))%Z
  then slice_from (Z.to_nat i) name
  else "".

(** [p < q] on paths: the parts are compared as Python compares lists, at
    the first position where they differ, by code points; a proper prefix
    is smaller. *)
Fixpoint path_ltb (p q : Path) : bool :=
  match p, q with
  | [], [] => false
  | [], _ :: _ => true
  | _ :: _, [] => false
  | a :: p', b :: q' =>
      if String.eqb a b then path_ltb p' q' else String.ltb a b
  end.

(** [sorted(paths)] *)
Definition sorted (xs : list Path) : list Path := sorted_with path_ltb xs.

End Pathlib.
Import Pathlib.

(** ** Exceptions and outcomes *)

Inductive Exception : Type :=
| SystemExit (message : string)
| LibraryError (class_name message : string).

(** What a call into a library gives back: a value, or an exception of the
    library's own ([ValueError], [OSError], ...), never [SystemExit]. *)
Inductive Lib (A : Type) : Type :=
| Done (value : A)
| Fails (class_name message : string).
Arguments Done {A} value.
Arguments Fails {A} class_name message.

Inductive Outcome (A : Type) : Type :=
| Ok (value : A)
| Raise (e : Exception).
Arguments Ok {A} value.
Arguments Raise {A} e.

Definition of_lib {A : Type} (r : Lib A) : Outcome A :=
  match r with
  | Done value => Ok value
  | Fails class_name message => Raise (LibraryError class_name message)
  end.

(** ** The path collector *)

Definition IMAGE_EXTENSIONS : list string :=
  [".png"; ".jpg"; ".jpeg"; ".tiff"; ".bmp"; ".gif"].

(** [image_path.suffix.lower() in IMAGE_EXTENSIONS] *)
Definition has_image_suffix (p : Path) : bool :=
  existsb (String.eqb (lower (suffix p))) IMAGE_EXTENSIONS.

(** The part of the file system the collector looks at.  Every call can
    raise: [is_file] and [is_dir] answer [False] for a missing path but
    re-raise other errors of the operating system (a name that is too long,
    a directory that may not be searched). *)
Record FileSystem : Type := {
  (** [path.is_file()] *)
  is_file : Path -> Lib bool;
  (** [path.is_dir()] *)
  is_dir : Path -> Lib bool;
  (** [list(path.rglob("*"))], in the order the directory scan yields *)
  rglob_star : Path -> Lib (list Path);
  (** the matches [Path().glob(pattern)] yields for a non-empty relative
      pattern, or the exception the pattern compiler raises *)
  glob_select : string -> Lib (list Path)
}.

(** [list(Path().glob(pattern))]: [pathlib] refuses the empty pattern and
    patterns with a root before it looks at the file system. *)
Definition glob (fs : FileSystem) (pattern : string) : Lib (list Path) :=
  if negb (truthy pattern) then
    Fails "ValueError" "Unacceptable pattern: ''"
  else if anchored (parse pattern) then
    Fails "NotImplementedError" "Non-relative patterns are unsupported"
  else glob_select fs pattern.

(** One turn of the [for raw in inputs] loop: the paths it appends. *)
Definition collect_one (fs : FileSystem) (raw : string) : Outcome (list Path) :=
  let path := parse raw in
  match of_lib (is_file fs path) with
  | Raise e => Raise e
  | Ok file =>
      if file && has_image_suffix path then Ok [path]
      else
        match of_lib (is_dir fs path) with
        | Raise e => Raise e
        | Ok true =>
            match of_lib (rglob_star fs path) with
            | Ok entries => Ok (filter has_image_suffix (sorted entries))
            | Raise e => Raise e
            end
        | Ok false =>
            match of_lib (glob fs raw) with
            | Ok matches => Ok (filter has_image_suffix (sorted matches))
            | Raise e => Raise e
            end
        end
  end.

(** The loop, with the list [paths] built so far. *)
Fixpoint collect_loop (fs : FileSystem) (paths : list Path)
  (inputs : list string) : Outcome (list Path) :=
  match inputs with
  | [] => Ok paths
  | raw :: rest =>
      match collect_one fs raw with
      | Ok found => collect_loop fs (paths ++ found) rest
      | Raise e => Raise e
      end
  end.

Definition collect_image_paths (fs : FileSystem) (inputs : list string)
  : Outcome (list Path) :=
  collect_loop fs [] inputs.

(** ** A directory tree as a file system *)

Module TreeFS.

Inductive Node : Type :=
| File
| Dir (entries : list (string * Node)).

(** A tree from the root directory, and the working directory in it. *)
Record Tree : Type := {
  root : Node;
  cwd : list string
}.

Fixpoint child (entries : list (string * Node)) (name : string)
  : option Node :=
  match entries with
  | [] => None
  | (n, c) :: rest => if String.eqb n name then Some c else child rest name
  end.

(** The node at a location given by names from [n] down. *)
Fixpoint lookup (n : Node) (names : list string) : option Node :=
  match names with
  | [] => Some n
  | x :: rest =>
      match n with
      | File => None
      | Dir entries =>
          match child entries x with
          | Some c => lookup c rest
          | None => None
          end
      end
  end.

(** Follow the parts of a path from location [loc]: every part is looked
    up in a directory; ".." goes to the parent (the root is its own
    parent). *)
Fixpoint walk (r : Node) (loc : list string) (parts : list string)
  : option (list string) :=
  match parts with
  | [] => Some loc
  | part :: rest =>
      match lookup r loc with
      | Some (Dir _) =>
          if String.eqb part ".." then walk r (removelast loc) rest
          else match lookup r (loc ++ [part]) with
               | Some _ => walk r (loc ++ [part]) rest
               | None => None
               end
      | _ => None
      end
  end.

Definition resolve (t : Tree) (p : Path) : option Node :=
  let start := if anchored p then [] else cwd t in
  let parts := if anchored p then tl p else p in
  match walk (root t) start parts with
  | Some loc => lookup (root t) loc
  | None => None
  end.

(** Every entry below a directory, as parts relative to it, parents
    before their contents, in stored order. *)
Fixpoint descendants (n : Node) : list (list string) :=
  match n with
  | File => []
  | Dir entries =>
      flat_map
        (fun entry => [fst entry] :: map (cons (fst entry)) (descendants (snd entry)))
        entries
  end.

(** The file system a tree presents; none of its calls raises, and the
    glob selector is left to the caller. *)
Definition file_system (t : Tree) (select : string -> Lib (list Path))
  : FileSystem :=
  {| is_file := fun p =>
       Done match resolve t p with Some File => true | _ => false end;
     is_dir := fun p =>
       Done match resolve t p with Some (Dir _) => true | _ => false end;
     rglob_star := fun p =>
       Done match resolve t p with
            | Some n => map (app p) (descendants n)
            | None => []
            end;
     glob_select := select |}.

Fixpoint distinct (names : list string) : bool :=
  match names with
  | [] => true
  | x :: rest => negb (existsb (String.eqb x) rest) && distinct rest
  end.

(** Names are distinct within every directory of the tree. *)
Fixpoint distinct_names (n : Node) : bool :=
  match n with
  | File => true
  | Dir entries =>
      distinct (map fst entries)
      && forallb (fun entry => distinct_names (snd entry)) entries
  end.

(** [e] comes before [f] by name. *)
Definition name_ltb (e f : string * Node) : bool :=
  String.ltb (fst e) (fst f).

(** Entries ordered by name. *)
Definition sort_entries (es : list (string * Node)) : list (string * Node) :=
  sorted_with name_ltb es.

(** The same tree with the entries of every directory, at every level,
    in the order of their names. *)
Fixpoint sort_tree (n : Node) : Node :=
  match n with
  | File => File
  | Dir entries =>
      Dir (sort_entries
             (map (fun entry => (fst entry, sort_tree (snd entry))) entries))
  end.

(** The recursive traversal that takes the entries of every directory in
    the order of their names, each entry before its contents. *)
Definition traverse_sorted (n : Node) : list (list string) :=
  descendants (sort_tree n).

End TreeFS.
Import TreeFS.

(** ** The pipeline and its effects *)

Record QARecord : Type := {
  question : string;
  answer : string
}.

(** [{"questions": questions}] *)
Record Payload : Type := {
  questions : list QARecord
}.

(** What a run does to the outside, in order.  The last two are the calls
    that hand the document over; either call can still raise. *)
Inductive Event : Type :=
| EvWhich (command : string)
| EvCollect (inputs : list string)
| EvOpen (image_path : Path)
| EvOcr (image_path : Path) (language : string)
| EvWriteText (output : Path) (payload : Payload) (indent : Z)
| EvPrint (payload : Payload) (indent : Z).

(** The document is handed over: [write_text] or [print] is called. *)
Definition is_output (ev : Event) : bool :=
  match ev with
  | EvWriteText _ _ _ | EvPrint _ _ => true
  | _ => false
  end.

(** An image is touched: opened or handed to the OCR engine. *)
Definition is_image_work (ev : Event) : bool :=
  match ev with
  | EvOpen _ | EvOcr _ _ => true
  | _ => false
  end.

(** A computation: the events it performed and how it ended. *)
Definition M (A : Type) : Type := (list Event * Outcome A)%type.

Definition ret {A : Type} (a : A) : M A := ([], Ok a).

Definition raise {A : Type} (e : Exception) : M A := ([], Raise e).

Definition emit (ev : Event) : M unit := ([ev], Ok tt).

Definition lift {A : Type} (r : Outcome A) : M A := ([], r).

Definition bind {A B : Type} (m : M A) (k : A -> M B) : M B :=
  match m with
  | (trace, Ok a) => let (trace', r) := k a in (trace ++ trace', r)
  | (trace, Raise e) => (trace, Raise e)
  end.

Notation "x <- m ;; k" := (bind m (fun x => k))
  (at level 61, m at next level, right associativity).
Notation "m ;; k" := (bind m (fun _ => k))
  (at level 61, right associativity).

Definition trace_of {A : Type} (m : M A) : list Event := fst m.
Definition outcome_of {A : Type} (m : M A) : Outcome A := snd m.

(** What [pytesseract.image_to_string] can do. *)
Inductive OcrResult : Type :=
| Recognized (text : string)
| TesseractNotFoundError
| OcrFails (class_name message : string).

(** The collaborators of a run. *)
Record World : Type := {
  Image : Type;
  (** the serialized document, a [str] *)
  Document : Type;
  (** [shutil.which(command)] *)
  which : string -> option string;
  fs : FileSystem;
  (** [Image.open(path)] *)
  image_open : Path -> Lib Image;
  (** [img.convert(mode)] *)
  convert : Image -> string -> Lib Image;
  (** [pytesseract.image_to_string(image, lang=language)] *)
  image_to_string : Image -> string -> OcrResult;
  (** [json.dumps(payload, indent=indent, ensure_ascii=False)] *)
  json_dumps : Payload -> Z -> Lib Document;
  (** [file.write_text(serialized, encoding="utf-8")] *)
  write_text : Path -> Document -> Lib unit;
  (** [print(serialized)] *)
  print : Document -> Lib unit
}.

Definition not_installed_message : string :=
  "Tesseract OCR is not installed or not on PATH. Install it from https://tesseract-ocr.github.io/tessdoc/Installation.html".

Definition not_found_message : string :=
  "Tesseract OCR binary not found on PATH. Install it and try again. See https://tesseract-ocr.github.io/tessdoc/Installation.html for instructions.".

Definition no_images_message : string := "No matching image files found.".

Definition run_ocr (w : World) (image_path : Path) (language : string)
  : M string :=
  emit (EvOpen image_path) ;;
  img <- lift (of_lib (image_open w image_path)) ;;
  grayscale_image <- lift (of_lib (convert w img "L")) ;;
  emit (EvOcr image_path language) ;;
  match image_to_string w grayscale_image language with
  | Recognized text => ret text
  | TesseractNotFoundError => raise (SystemExit not_installed_message)
  | OcrFails class_name message => raise (LibraryError class_name message)
  end.

(** The truth value of [shutil.which("tesseract")]. *)
Definition tesseract_found (w : World) : bool :=
  match which w "tesseract" with
  | Some location => truthy location
  | None => false
  end.

Definition ensure_tesseract_available (w : World) : M unit :=
  emit (EvWhich "tesseract") ;;
  if tesseract_found w then ret tt
  else raise (SystemExit not_found_message).

(** The [for image_path in image_paths] loop, with the list [questions]
    built so far. *)
Fixpoint build_loop (w : World) (questions : list QARecord)
  (image_paths : list Path) (language : string) : M (list QARecord) :=
  match image_paths with
  | [] => ret questions
  | image_path :: rest =>
      text <- run_ocr w image_path language ;;
      let (question, answer) := split_question_answer text in
      build_loop w
        (questions ++ [{| question := question; answer := answer |}])
        rest language
  end.

Definition build_questions (w : World) (image_paths : list Path)
  (language : string) : M (list QARecord) :=
  build_loop w [] image_paths language.

(** The parsed command line. *)
Record Args : Type := {
  inputs : list string;
  lang : string;
  output : option Path;
  indent : Z
}.

Definition main (w : World) (args : Args) : M unit :=
  ensure_tesseract_available w ;;
  emit (EvCollect (inputs args)) ;;
  image_paths <- lift (collect_image_paths (fs w) (inputs args)) ;;
  match image_paths with
  | [] => raise (SystemExit no_images_message)
  | _ :: _ =>
      questions <- build_questions w image_paths (lang args) ;;
      let payload := {| questions := questions |} in
      serialized <- lift (of_lib (json_dumps w payload (indent args))) ;;
      match output args with
      | Some file =>
          emit (EvWriteText file payload (indent args)) ;;
          lift (of_lib (write_text w file serialized))
      | None =>
          emit (EvPrint payload (indent args)) ;;
          lift (of_lib (print w serialized))
      end
  end.

(** ** A sample run *)

Module Sample.
Import TreeFS.

(** /w/d holds two images at the top, a text file, a directory [a] with
    two images and a directory that is named like an image. *)
Definition tree : Tree :=
  {| root :=
       Dir [("w",
             Dir [("d",
                   Dir [("a.png", File);
                        ("b.txt", File);
                        ("a", Dir [(".h.png", File); ("x.png", File)]);
                        ("B.PNG", File);
                        ("x.png", Dir [])]);
                  ("notes.txt", File)])];
     cwd := ["w"] |}.

(** The selector of the sample; no input used below reaches it. *)
Definition select (pattern : string) : Lib (list Path) := Done [].

Definition file_system : FileSystem := TreeFS.file_system tree select.

(** Images are their paths; every image reads as the two lines
    "What is 2+2?" and "Answer: 4". *)
Definition world (tesseract : option string) : World :=
  {| Image := Path;
     Document := Payload * Z;
     which := fun command =>
       if String.eqb command "tesseract" then tesseract else None;
     fs := file_system;
     image_open := fun p => Done p;
     convert := fun img _ => Done img;
     image_to_string := fun img _ =>
       Recognized ("What is 2+2?" ++ String LF "Answer: 4");
     json_dumps := fun payload indent => Done (payload, indent);
     write_text := fun _ _ => Done tt;
     print := fun _ => Done tt |}.

(** The same, but the file at d/a.png cannot be decoded. *)
Definition world_corrupt : World :=
  {| Image := Path;
     Document := Payload * Z;
     which := fun command =>
       if String.eqb command "tesseract" then Some "/usr/bin/tesseract"
       else None;
     fs := file_system;
     image_open := fun p =>
       if list_eq_dec string_dec p ["d"; "a.png"]
       then Fails "UnidentifiedImageError" "cannot identify image file"
       else Done p;
     convert := fun img _ => Done img;
     image_to_string := fun img _ =>
       Recognized ("What is 2+2?" ++ String LF "Answer: 4");
     json_dumps := fun payload indent => Done (payload, indent);
     write_text := fun _ _ => Done tt;
     print := fun _ => Done tt |}.


(** All images read, but the output file cannot be opened for writing. *)
Definition world_read_only : World :=
  {| Image := Path;
     Document := Payload * Z;
     which := fun command =>
       if String.eqb command "tesseract" then Some "/usr/bin/tesseract"
       else None;
     fs := file_system;
     image_open := fun p => Done p;
     convert := fun img _ => Done img;
     image_to_string := fun img _ =>
       Recognized ("What is 2+2?" ++ String LF "Answer: 4");
     json_dumps := fun payload indent => Done (payload, indent);
     write_text := fun _ _ =>
       Fails "FileNotFoundError" "No such file or directory";
     print := fun _ => Done tt |}.

Definition args (inputs : list string) : Args :=
  {| inputs := inputs; lang := "eng"; output := None; indent := 2 |}.

End Sample.

(** ** Vocabulary of the statements *)

(** [a] is not after [b]: [b < a] does not hold. *)
Definition not_after {A : Type} (ltb : A -> A -> bool) (a b : A) : Prop :=
  ltb b a = false.

(** A string is clean at the front (resp. at the back) when it is empty or
    its first (resp. last) character is not white space. *)
Definition head_ok (s : string) : bool :=
  match s with
  | EmptyString => true
  | String c _ => negb (isspace c)
  end.

Fixpoint last_ok (s : string) : bool :=
  match s with
  | EmptyString => true
  | String c EmptyString => negb (isspace c)
  | String _ r => last_ok r
  end.

(** No character of [s] is a line boundary. *)
Definition newline_free (s : string) : Prop :=
  forall c, In c (list_ascii_of_string s) -> is_linebreak c = false.

(** A line kept by the splitter: stripped and non-empty. *)
Definition kept_line (l : string) : Prop :=
  l <> "" /\ head_ok l = true /\ last_ok l = true.

(** [starts_ci line marker]: the line starts with the marker, compared
    case-insensitively (the markers themselves are lower-case). *)
Definition starts_ci (line marker : string) : bool :=
  startswith (lower line) marker.

(** The line starts with one of the markers. *)
Definition matches_any (markers : list string) (line : string) : bool :=
  existsb (starts_ci line) markers.

(** None of the lines starts with one of the markers. *)
Definition no_marker_line (markers : list string) (lines : list string) : bool :=
  forallb (fun l => negb (matches_any markers l)) lines.

Definition path_eq_dec : forall p q : Path, {p = q} + {p <> q} :=
  list_eq_dec string_dec.

(** The paths one entry contributes: itself, then its contents. *)
Definition entry_paths (e : string * Node) : list (list string) :=
  [fst e] :: map (cons (fst e)) (descendants (snd e)).

(** The record built from the text of one image (lines 101-102). *)
Definition record_of (text : string) : QARecord :=
  let (question, answer) := split_question_answer text in
  {| question := question; answer := answer |}.

(** Record [r] is what the splitter makes of the OCR text of image [p]. *)
Definition reads (w : World) (language : string) (p : Path) (r : QARecord)
  : Prop :=
  exists text,
    outcome_of (run_ocr w p language) = Ok text /\ r = record_of text.

(** The event that hands the document over (lines 143-146). *)
Definition output_event (args : Args) (records : list QARecord) : Event :=
  match output args with
  | Some file => EvWriteText file {| questions := records |} (indent args)
  | None => EvPrint {| questions := records |} (indent args)
  end.

(** The last step of [main] for the records built (lines 140-146): the
    document is serialized, then written or printed. *)
Definition output_step (w : World) (args : Args) (records : list QARecord)
  : M unit :=
  serialized <-
    lift (of_lib (json_dumps w {| questions := records |} (indent args))) ;;
  match output args with
  | Some file =>
      emit (EvWriteText file {| questions := records |} (indent args)) ;;
      lift (of_lib (write_text w file serialized))
  | None =>
      emit (EvPrint {| questions := records |} (indent args)) ;;
      lift (of_lib (print w serialized))
  end.

(** The output step goes through: the document is serialized and the call
    that hands it over returns. *)
Definition output_succeeds (w : World) (args : Args)
  (records : list QARecord) : Prop :=
  exists serialized,
    json_dumps w {| questions := records |} (indent args) = Done serialized
    /\ match output args with
       | Some file => write_text w file serialized = Done tt
       | None => print w serialized = Done tt
       end.


(** The availability check. *)
Definition is_check (ev : Event) : bool :=
  match ev with
  | EvWhich _ => true
  | _ => false
  end.

(** The computation ends in an exception and nothing was written or
    printed. *)
Definition aborts_without_output {A : Type} (m : M A) : Prop :=
  (exists e, outcome_of m = Raise e)
  /\ existsb is_output (trace_of m) = false.

(** The events of one image that reads: it is opened, then handed to the
    OCR engine. *)
Definition image_events (language : string) (p : Path) : list Event :=
  [EvOpen p; EvOcr p language].

(** Image [p] reads: [run_ocr] returns a text for it. *)
Definition readable (w : World) (language : string) (p : Path) : Prop :=
  exists text, outcome_of (run_ocr w p language) = Ok text.

(** Two results of the glob selector that differ at most in the order of
    the matches. *)
Definition same_matches (r1 r2 : Lib (list Path)) : Prop :=
  match r1, r2 with
  | Done a, Done b => Permutation a b
  | Fails c1 m1, Fails c2 m2 => c1 = c2 /\ m1 = m2
  | _, _ => False
  end.

(** The sample file system with every directory scan yielding its entries
    in the opposite order. *)
Definition sample_scanned_backwards : FileSystem :=
  {| is_file := is_file Sample.file_system;
     is_dir := is_dir Sample.file_system;
     rglob_star := fun p =>
       match rglob_star Sample.file_system p with
       | Done entries => Done (rev entries)
       | Fails class_name message => Fails class_name message
       end;
     glob_select := glob_select Sample.file_system |}.

(** No character of [s] is a dot. *)
Definition dot_free (s : string) : Prop :=
  forall c, In c (list_ascii_of_string s) -> c <> "."%char.

(** The kept lines of a list of raw lines (line 43, after [splitlines]). *)
Definition stripped (raw_lines : list string) : list string :=
  map strip (filter (fun line => truthy (strip line)) raw_lines).

(** Every character of [s] is white space. *)
Definition all_space (s : string) : bool :=
  forallb isspace (list_ascii_of_string s).

(** The text with every LF written as CR LF. *)
Fixpoint to_crlf (s : string) : string :=
  match s with
  | EmptyString => EmptyString
  | String c rest =>
      if Ascii.eqb c LF then String CR (String LF (to_crlf rest))
      else String c (to_crlf rest)
  end.

(** Every character of [s] satisfies [P]. *)
Definition chars_in (P : ascii -> Prop) (s : string) : Prop :=
  forall c, In c (list_ascii_of_string s) -> P c.

(* ================================================================== *)
(** * Part II: properties *)
(* ================================================================== *)

(** ** The scenarios of the specification, run on the model *)

Example split_explicit_marker :
  split_question_answer ("What is 2+2?" ++ String LF "Answer: 4")
  = ("What is 2+2?", "4").
Proof. reflexivity. Qed.

Example split_multi_line_answer :
  split_question_answer
    ("Capital of France?" ++ String LF "Answer: Paris"
       ++ String LF "Population ~2M")
  = ("Capital of France?", "Paris Population ~2M").
Proof. reflexivity. Qed.

Example split_two_lines_no_marker :
  split_question_answer ("Define entropy" ++ String LF "A measure of disorder")
  = ("Define entropy", "A measure of disorder").
Proof. reflexivity. Qed.

Example split_single_line :
  split_question_answer "Just one line here" = ("Just one line here", "").
Proof. reflexivity. Qed.

Example split_empty_input :
  split_question_answer "" = ("", "")
  /\ split_question_answer (" " ++ String LF (String CR "  ")) = ("", "").
Proof. split; reflexivity. Qed.

Example split_crlf_and_bare_marker :
  split_question_answer
    ("Q1" ++ String CR (String LF "a:" ++ String CR (String LF " x ")))
  = ("Q1", "x").
Proof. reflexivity. Qed.

Example collect_ignores_extension_case :
  collect_image_paths
    (TreeFS.file_system
       {| root := Dir [("a.PNG", File); ("b.txt", File); ("c.jpeg", File)];
          cwd := [] |}
       Sample.select)
    ["."]
  = Ok [["a.PNG"]; ["c.jpeg"]].
Proof. reflexivity. Qed.

(** Paths are ordered part by part, which is the order of a traversal, not
    the order of the joined strings: "/" sorts after ".". *)
Example path_order_is_by_parts :
  path_ltb ["d"; "a"; "x.png"] ["d"; "a.png"] = true
  /\ String.ltb "d/a/x.png" "d/a.png" = false.
Proof. split; reflexivity. Qed.

(** ** Facts about the string operations *)

Lemma head_ok_lstrip s : head_ok (lstrip s) = true.
Proof.
  induction s as [|c r IH]; simpl; auto.
  destruct (isspace c) eqn:E; auto. simpl. now rewrite E.
Qed.

Lemma lstrip_fix s : head_ok s = true -> lstrip s = s.
Proof.
  destruct s as [|c r]; simpl; auto.
  now destruct (isspace c).
Qed.

Lemma rstrip_cons c r :
  rstrip (String c r) =
  match rstrip r with
  | EmptyString => if isspace c then EmptyString else String c EmptyString
  | r' => String c r'
  end.
Proof. reflexivity. Qed.

Lemma last_ok_rstrip s : last_ok (rstrip s) = true.
Proof.
  induction s as [|c r IH]; auto.
  rewrite rstrip_cons. destruct (rstrip r) as [|d r'] eqn:E.
  - destruct (isspace c) eqn:Ec; simpl; auto. now rewrite Ec.
  - exact IH.
Qed.

Lemma rstrip_fix s : last_ok s = true -> rstrip s = s.
Proof.
  induction s as [|c r IH]; auto.
  intros H. rewrite rstrip_cons. destruct r as [|d r'].
  - simpl in *. now destruct (isspace c).
  - change (last_ok (String d r') = true) in H.
    rewrite (IH H). reflexivity.
Qed.

Lemma head_ok_rstrip s : head_ok s = true -> head_ok (rstrip s) = true.
Proof.
  destruct s as [|c r]; auto. intros H.
  rewrite rstrip_cons. simpl in H.
  destruct (rstrip r); destruct (isspace c) eqn:E; simpl in *;
    rewrite ?E; simpl; congruence.
Qed.

Lemma strip_fix s : head_ok s = true -> last_ok s = true -> strip s = s.
Proof.
  intros Hh Hl. unfold strip. rewrite (lstrip_fix _ Hh). now apply rstrip_fix.
Qed.

Lemma head_ok_strip s : head_ok (strip s) = true.
Proof. apply head_ok_rstrip, head_ok_lstrip. Qed.

Lemma last_ok_strip s : last_ok (strip s) = true.
Proof. apply last_ok_rstrip. Qed.

Lemma strip_idempotent s : strip (strip s) = strip s.
Proof. apply strip_fix; [apply head_ok_strip | apply last_ok_strip]. Qed.

Lemma head_ok_app a b :
  a <> "" -> head_ok (a ++ b) = head_ok a.
Proof. destruct a; [congruence | reflexivity]. Qed.

Lemma last_ok_app a b :
  b <> "" -> last_ok (a ++ b) = last_ok b.
Proof.
  intros Hb. induction a as [|c r IH]; auto.
  simpl. rewrite IH. destruct (r ++ b)%string eqn:E; auto.
  destruct r, b; simpl in E; congruence.
Qed.

Lemma truthy_true s : truthy s = true <-> s <> "".
Proof. destruct s; simpl; split; congruence. Qed.

Lemma truthy_false s : truthy s = false <-> s = "".
Proof. destruct s; simpl; split; congruence. Qed.

Lemma join_cons sep x y ys :
  join sep (x :: y :: ys) = (x ++ sep ++ join sep (y :: ys))%string.
Proof. reflexivity. Qed.

Lemma join_kept ls :
  Forall kept_line ls -> ls <> [] -> kept_line (join " " ls).
Proof.
  induction 1 as [|x xs Hx Hxs IH]; [congruence|]. intros _.
  destruct xs as [|y ys]; [exact Hx|].
  rewrite join_cons. destruct Hx as (Hx0 & Hxh & Hxl).
  destruct IH as (Hj0 & Hjh & Hjl); [discriminate|].
  repeat split.
  - destruct x; [congruence | discriminate].
  - now rewrite head_ok_app.
  - rewrite last_ok_app.
    + rewrite last_ok_app; auto.
    + discriminate.
Qed.

Lemma strip_join_kept ls :
  Forall kept_line ls -> strip (join " " ls) = join " " ls.
Proof.
  intros H. destruct ls as [|x xs]; [reflexivity|].
  destruct (join_kept H) as (_ & Hh & Hl); [discriminate|].
  now apply strip_fix.
Qed.

Lemma stripped_lines_kept text : Forall kept_line (stripped_lines text).
Proof.
  unfold stripped_lines. apply Forall_forall. intros l Hl.
  apply in_map_iff in Hl. destruct Hl as (l0 & <- & Hin).
  apply filter_In in Hin. destruct Hin as (_ & Ht).
  repeat split.
  - now apply truthy_true.
  - apply head_ok_strip.
  - apply last_ok_strip.
Qed.

(** *** Line boundaries never survive [splitlines] *)

Lemma newline_free_nil : newline_free "".
Proof. intros c []. Qed.

Lemma newline_free_cons c r :
  newline_free (String c r) <-> is_linebreak c = false /\ newline_free r.
Proof.
  unfold newline_free; simpl; split.
  - intros H; split; [apply H; auto | intros d Hd; apply H; auto].
  - intros [Hc Hr] d [<- | Hd]; auto.
Qed.

Lemma newline_free_app a b :
  newline_free a -> newline_free b -> newline_free (a ++ b).
Proof.
  induction a as [|c r IH]; simpl; auto.
  rewrite !newline_free_cons. intros [Hc Hr] Hb; auto.
Qed.

Lemma newline_free_lstrip s : newline_free s -> newline_free (lstrip s).
Proof.
  induction s as [|c r IH]; simpl; auto.
  intros H. destruct (isspace c); auto.
  apply IH. now apply newline_free_cons in H.
Qed.

Lemma newline_free_rstrip s : newline_free s -> newline_free (rstrip s).
Proof.
  induction s as [|c r IH]; auto.
  rewrite rstrip_cons, newline_free_cons. intros [Hc Hr].
  specialize (IH Hr). destruct (rstrip r).
  - destruct (isspace c); [apply newline_free_nil|].
    apply newline_free_cons; split; [exact Hc | apply newline_free_nil].
  - apply newline_free_cons; auto.
Qed.

Lemma newline_free_strip s : newline_free s -> newline_free (strip s).
Proof. intros H. apply newline_free_rstrip, newline_free_lstrip, H. Qed.

Lemma newline_free_slice_from n s :
  newline_free s -> newline_free (slice_from n s).
Proof.
  revert s; induction n as [|n IH]; intros [|c r]; simpl; auto.
  intros H. apply IH. now apply newline_free_cons in H.
Qed.

Lemma newline_free_join ls :
  Forall newline_free ls -> newline_free (join " " ls).
Proof.
  induction 1 as [|x xs Hx Hxs IH]; [apply newline_free_nil|].
  destruct xs as [|y ys]; [exact Hx|].
  rewrite join_cons. apply newline_free_app; auto.
  apply newline_free_app; auto.
  apply newline_free_cons; split; [reflexivity | apply newline_free_nil].
Qed.

Lemma splitlines_newline_free_le n :
  forall s, String.length s <= n -> Forall newline_free (splitlines s).
Proof.
  induction n as [|n IH]; intros [|c rest] Hlen; simpl in *;
    try (constructor; fail); try lia.
  assert (Hrest : Forall newline_free (splitlines rest)) by (apply IH; lia).
  destruct (is_linebreak c) eqn:Ec.
  - constructor; [apply newline_free_nil|].
    destruct rest as [|d rest']; auto.
    destruct (Ascii.eqb c CR && Ascii.eqb d LF); auto.
    apply IH. simpl in Hlen. lia.
  - destruct (splitlines rest) as [|l ls].
    + constructor; [|constructor].
      apply newline_free_cons; split; [exact Ec | apply newline_free_nil].
    + inversion Hrest; subst. constructor; auto.
      apply newline_free_cons; auto.
Qed.

Lemma splitlines_newline_free s : Forall newline_free (splitlines s).
Proof. apply (splitlines_newline_free_le (n := String.length s)). lia. Qed.

Lemma stripped_lines_newline_free text :
  Forall newline_free (stripped_lines text).
Proof.
  unfold stripped_lines. apply Forall_forall. intros l Hl.
  apply in_map_iff in Hl. destruct Hl as (l0 & <- & Hin).
  apply filter_In in Hin. destruct Hin as (Hin & _).
  apply newline_free_strip.
  exact (proj1 (Forall_forall _ _) (splitlines_newline_free text) _ Hin).
Qed.

(** *** The two marker loops *)

Lemma first_marker_find markers line :
  first_marker markers (lower line) = find (starts_ci line) markers.
Proof.
  unfold starts_ci. induction markers as [|m ms IH]; simpl; auto.
  now rewrite IH.
Qed.

Lemma find_none_matches_any markers line :
  matches_any markers line = false -> find (starts_ci line) markers = None.
Proof.
  unfold matches_any. induction markers as [|m ms IH]; simpl; auto.
  destruct (starts_ci line m); simpl; [discriminate | exact IH].
Qed.

Lemma answer_loop_hit lines marker :
  forall rest k idx,
    no_marker_line answer_markers (firstn k rest) = true ->
    find (starts_ci (nth k rest "")) answer_markers = Some marker ->
    answer_loop lines idx (map lower rest)
    = Some (answer_split lines (idx + k) marker).
Proof.
  induction rest as [|l rest IH]; intros k idx Hbefore Hat.
  - destruct k; discriminate Hat.
  - cbn [map answer_loop]. rewrite first_marker_find. destruct k as [|k].
    + cbn [nth] in Hat. rewrite Hat. now rewrite Nat.add_0_r.
    + cbn [firstn no_marker_line forallb] in Hbefore.
      apply andb_prop in Hbefore. destruct Hbefore as [H0 Hbefore].
      apply negb_true_iff in H0.
      rewrite (find_none_matches_any _ _ H0).
      rewrite (IH k (S idx)); auto. now rewrite Nat.add_succ_r.
Qed.

Lemma answer_loop_miss lines :
  forall rest idx,
    no_marker_line answer_markers rest = true ->
    answer_loop lines idx (map lower rest) = None.
Proof.
  induction rest as [|l rest IH]; intros idx H; [reflexivity|].
  cbn [no_marker_line forallb] in H. apply andb_prop in H. destruct H as [H0 H].
  apply negb_true_iff in H0.
  cbn [map answer_loop]. rewrite first_marker_find.
  rewrite (find_none_matches_any _ _ H0). now apply IH.
Qed.

Lemma answer_loop_result lines :
  forall lower_rest idx result,
    answer_loop lines idx lower_rest = Some result ->
    exists k marker, result = answer_split lines k marker.
Proof.
  induction lower_rest as [|l rest IH]; intros idx result; cbn [answer_loop].
  - discriminate.
  - destruct (first_marker answer_markers l) as [marker|].
    + intros H. inversion H. now exists idx, marker.
    + apply IH.
Qed.

Lemma lower_length s : String.length (lower s) = String.length s.
Proof. induction s; simpl; auto. Qed.

(** When a line starts with a marker, the slice taken by the code is what
    follows the (case-insensitively equal) marker prefix. *)
Lemma starts_ci_split marker :
  forall line,
    starts_ci line marker = true ->
    exists pre rest,
      line = (pre ++ rest)%string /\ lower pre = marker
      /\ slice_from (String.length marker) line = rest.
Proof.
  unfold starts_ci, startswith.
  induction marker as [|a m IH]; intros line H.
  - exists "", line. auto.
  - destruct line as [|b l]; simpl in H; [discriminate|].
    destruct (ascii_dec a (lower_char b)) as [->|]; [|discriminate].
    destruct (IH l H) as (pre & rest & -> & Hpre & Hrest).
    exists (String b pre), rest. simpl. rewrite Hpre. auto.
Qed.

Lemma find_starts_ci markers line marker :
  find (starts_ci line) markers = Some marker -> starts_ci line marker = true.
Proof. intros H. now apply find_some in H. Qed.

Lemma question_loop_find line :
  forall markers,
    question_loop markers line =
    match find (starts_ci line) markers with
    | Some marker =>
        let trimmed := strip (slice_from (String.length marker) line) in
        if truthy trimmed then trimmed else line
    | None => line
    end.
Proof.
  induction markers as [|m ms IH]; simpl; auto.
  unfold starts_ci at 1. destruct (startswith (lower line) m); auto.
Qed.

(** *** White-space-only text has no line to keep *)

Lemma splitlines_chars_le n :
  forall s, String.length s <= n ->
  forall l c, In l (splitlines s) ->
    In c (list_ascii_of_string l) -> In c (list_ascii_of_string s).
Proof.
  induction n as [|n IH]; intros [|a rest] Hlen l c Hl Hc; simpl in *;
    try contradiction; try lia.
  destruct (is_linebreak a).
  - destruct Hl as [<- | Hl]; [contradiction|].
    right. destruct rest as [|d rest']; [contradiction|].
    destruct (Ascii.eqb a CR && Ascii.eqb d LF).
    + simpl. right. apply (IH rest') with (l := l); auto. simpl in Hlen. lia.
    + apply (IH (String d rest')) with (l := l); auto. lia.
  - assert (Hrec : forall l', In l' (splitlines rest) ->
               In c (list_ascii_of_string l') ->
               In c (list_ascii_of_string rest)).
    { intros l' Hl' Hc'. apply (IH rest) with (l := l'); auto. lia. }
    destruct (splitlines rest) as [|l1 ls].
    + destruct Hl as [<- | []]. simpl in Hc. destruct Hc as [-> | []]. now left.
    + destruct Hl as [<- | Hl].
      * simpl in Hc. destruct Hc as [-> | Hc]; [now left|].
        right. apply (Hrec l1); simpl; auto.
      * right. apply (Hrec l); simpl; auto.
Qed.

Lemma lstrip_all_space s :
  forallb isspace (list_ascii_of_string s) = true -> lstrip s = "".
Proof.
  induction s as [|c r IH]; simpl; auto.
  intros H. apply andb_prop in H. destruct H as [Hc Hr]. rewrite Hc. auto.
Qed.

Lemma filter_none (A : Type) (f : A -> bool) (l : list A) :
  (forall x, In x l -> f x = false) -> filter f l = [].
Proof.
  induction l as [|x xs IH]; simpl; auto.
  intros H. rewrite (H x) by auto. apply IH. intros; apply H; auto.
Qed.

Lemma stripped_lines_all_space text :
  forallb isspace (list_ascii_of_string text) = true ->
  stripped_lines text = [].
Proof.
  intros H. unfold stripped_lines.
  rewrite filter_none; [reflexivity|]. intros l Hl.
  unfold strip. rewrite lstrip_all_space; [reflexivity|].
  apply forallb_forall. intros c Hc.
  apply (proj1 (forallb_forall _ _) H).
  exact (splitlines_chars_le (n := String.length text) text (le_n _) l c Hl Hc).
Qed.

Lemma Forall_firstn_of (A : Type) (P : A -> Prop) (l : list A) n :
  Forall P l -> Forall P (firstn n l).
Proof.
  intros H. revert n. induction H; intros [|n]; simpl; constructor; auto.
Qed.

Lemma Forall_skipn_of (A : Type) (P : A -> Prop) (l : list A) n :
  Forall P l -> Forall P (skipn n l).
Proof.
  intros H. rewrite <- (firstn_skipn n l) in H.
  now apply Forall_app in H.
Qed.

(** ** The QA splitter: claims C1, C2, C9, C10 *)

(** C1. When some kept line starts, case-insensitively, with an answer
    marker, the first such line (index [i]) is the split point: the question
    is the lines before [i] joined by single spaces, the answer is what
    follows the marker on line [i] (left out when it strips to nothing)
    followed by the lines after [i], joined by single spaces; both are
    stripped.  "Answer: 42", "ANSWER:42" and "answer:42" give answer "42". *)
Theorem split_at_answer_marker :
  (forall text i marker,
      let lines := stripped_lines text in
      no_marker_line answer_markers (firstn i lines) = true ->
      find (starts_ci (nth i lines "")) answer_markers = Some marker ->
      exists pre rest,
        nth i lines "" = (pre ++ rest)%string /\ lower pre = marker
        /\ split_question_answer text
           = (strip (join " " (firstn i lines)),
              strip (join " "
                       (match strip rest with
                        | EmptyString => []
                        | fragment => [fragment]
                        end ++ skipn (S i) lines))))
  /\ snd (split_question_answer "Answer: 42") = "42"
  /\ snd (split_question_answer "ANSWER:42") = "42"
  /\ snd (split_question_answer "answer:42") = "42".
Proof.
  split; [|repeat split; reflexivity].
  intros text i marker lines Hbefore Hat.
  destruct (starts_ci_split _ _ (find_starts_ci _ _ Hat))
    as (pre & rest & Hline & Hpre & Hslice).
  exists pre, rest. repeat split; auto.
  unfold split_question_answer. fold lines.
  destruct lines as [|line0 others] eqn:Elines.
  - destruct i; discriminate Hat.
  - rewrite (answer_loop_hit (line0 :: others) (line0 :: others) i 0 Hbefore Hat).
    unfold answer_split. cbn [Nat.add]. rewrite Hslice.
    now destruct (strip rest).
Qed.

(** C2. With more than one kept line and no answer marker on any of them,
    the question is the first line, with the first question marker it starts
    with (case-insensitively) and the surrounding white space removed unless
    that would leave nothing, and the answer is the remaining lines joined by
    single spaces. *)
Theorem split_without_answer_marker :
  (forall text line0 others,
      stripped_lines text = line0 :: others ->
      others <> [] ->
      no_marker_line answer_markers (line0 :: others) = true ->
      snd (split_question_answer text) = join " " others
      /\ match find (starts_ci line0) question_markers with
         | None => fst (split_question_answer text) = line0
         | Some marker =>
             exists pre rest,
               line0 = (pre ++ rest)%string /\ lower pre = marker
               /\ fst (split_question_answer text)
                  = match strip rest with
                    | EmptyString => line0
                    | stripped => stripped
                    end
         end)
  /\ split_question_answer
       ("Q: Define entropy" ++ String LF "A measure of disorder")
     = ("Define entropy", "A measure of disorder").
Proof.
  split; [|reflexivity].
  intros text line0 others Hlines Hmany Hnone.
  unfold split_question_answer. rewrite Hlines.
  rewrite (answer_loop_miss _ _ 0 Hnone).
  destruct others as [|line1 others']; [congruence|].
  cbn [List.length Nat.ltb Nat.leb fst snd]. split.
  - apply strip_join_kept.
    pose proof (stripped_lines_kept text) as Hk. rewrite Hlines in Hk.
    now inversion Hk.
  - rewrite question_loop_find.
    destruct (find (starts_ci line0) question_markers) as [marker|] eqn:Ef; auto.
    destruct (starts_ci_split _ _ (find_starts_ci _ _ Ef))
      as (pre & rest & Hline & Hpre & Hslice).
    exists pre, rest. repeat split; auto.
    cbv zeta. rewrite Hslice. now destruct (strip rest).
Qed.

(** C9. With no kept line (in particular for empty or white-space-only
    text) the result is ("", ""); with exactly one kept line that starts
    with no answer marker the result is (that line, ""), whatever question
    marker the line may start with. *)
Theorem split_at_most_one_line :
  forall text,
    (stripped_lines text = [] -> split_question_answer text = ("", ""))
    /\ (forallb isspace (list_ascii_of_string text) = true ->
        split_question_answer text = ("", ""))
    /\ (forall line,
           stripped_lines text = [line] ->
           matches_any answer_markers line = false ->
           split_question_answer text = (line, "")).
Proof.
  intros text. repeat split.
  - intros H. unfold split_question_answer. now rewrite H.
  - intros H. unfold split_question_answer.
    now rewrite (stripped_lines_all_space _ H).
  - intros line Hlines Hnone. unfold split_question_answer. rewrite Hlines.
    rewrite answer_loop_miss; [reflexivity|].
    cbn [no_marker_line forallb]. now rewrite Hnone.
Qed.

(** C10. On every return path both components of the result are stripped
    (stripping them again changes nothing) and contain no line boundary. *)
Theorem split_result_stripped_single_line :
  forall text,
    strip (fst (split_question_answer text)) = fst (split_question_answer text)
    /\ strip (snd (split_question_answer text)) = snd (split_question_answer text)
    /\ newline_free (fst (split_question_answer text))
    /\ newline_free (snd (split_question_answer text)).
Proof.
  intros text. unfold split_question_answer.
  pose proof (stripped_lines_kept text) as Hk.
  pose proof (stripped_lines_newline_free text) as Hn.
  destruct (stripped_lines text) as [|line0 others] eqn:El.
  { repeat split; try reflexivity; apply newline_free_nil. }
  set (lines := line0 :: others) in *.
  assert (Hnth : forall k, newline_free (nth k lines "")).
  { intros k. destruct (Nat.lt_ge_cases k (List.length lines)) as [Hlt | Hge].
    - apply (proj1 (Forall_forall _ _) Hn). now apply nth_In.
    - rewrite nth_overflow by exact Hge. apply newline_free_nil. }
  destruct (answer_loop lines 0 (map lower lines)) as [result|] eqn:Eloop.
  - apply answer_loop_result in Eloop. destruct Eloop as (k & marker & ->).
    unfold answer_split. cbn [fst snd]. rewrite !strip_idempotent.
    repeat split; auto; apply newline_free_strip, newline_free_join.
    + now apply Forall_firstn_of.
    + apply Forall_app. split; [|now apply Forall_skipn_of].
      destruct (truthy _); constructor; auto.
      apply newline_free_strip, newline_free_slice_from, Hnth.
  - inversion Hk as [|? ? Hk0 Hko]; subst. inversion Hn as [|? ? Hn0 Hno]; subst.
    destruct Hk0 as (_ & Hh & Hl).
    destruct (1 <? List.length lines)%nat; cbn [fst snd].
    + rewrite question_loop_find, strip_idempotent.
      repeat split.
      * destruct (find _ _); [|now apply strip_fix].
        cbv zeta. destruct (truthy _); [apply strip_idempotent | now apply strip_fix].
      * destruct (find _ _); auto. cbv zeta. destruct (truthy _); auto.
        now apply newline_free_strip, newline_free_slice_from.
      * now apply newline_free_strip, newline_free_join.
    + repeat split; auto; try apply newline_free_nil. now apply strip_fix.
Qed.

(** ** The path collector: claims C4 and C5 *)

Lemma collect_loop_from fs inputs :
  forall paths,
    collect_loop fs paths inputs =
    match collect_loop fs [] inputs with
    | Ok found => Ok (paths ++ found)
    | Raise e => Raise e
    end.
Proof.
  induction inputs as [|raw rest IH]; intros paths; simpl.
  - now rewrite app_nil_r.
  - destruct (collect_one fs raw) as [found|e]; auto.
    rewrite (IH (paths ++ found)), (IH found).
    destruct (collect_loop fs [] rest); auto. now rewrite app_assoc.
Qed.

Lemma collect_loop_app fs xs ys :
  forall paths,
    collect_loop fs paths (xs ++ ys) =
    match collect_loop fs paths xs with
    | Ok found => collect_loop fs found ys
    | Raise e => Raise e
    end.
Proof.
  induction xs as [|raw rest IH]; intros paths; simpl; auto.
  destruct (collect_one fs raw); auto.
Qed.

Lemma collect_image_paths_app fs xs ys :
  collect_image_paths fs (xs ++ ys) =
  match collect_image_paths fs xs with
  | Ok a =>
      match collect_image_paths fs ys with
      | Ok b => Ok (a ++ b)
      | Raise e => Raise e
      end
  | Raise e => Raise e
  end.
Proof.
  unfold collect_image_paths. rewrite collect_loop_app.
  destruct (collect_loop fs [] xs) as [a|e]; auto.
  apply collect_loop_from.
Qed.

Lemma collect_image_paths_single fs raw :
  collect_image_paths fs [raw] = collect_one fs raw.
Proof.
  unfold collect_image_paths. simpl. now destruct (collect_one fs raw).
Qed.

(** C4. Collecting from [xs ++ ys] is collecting from [xs], then from [ys],
    and appending: each input contributes its own run of paths, in order.
    Nothing is removed: a path found by two inputs is there twice. *)
Theorem collect_concatenation :
  forall fs xs ys,
    collect_image_paths fs (xs ++ ys)
    = match collect_image_paths fs xs with
      | Ok a =>
          match collect_image_paths fs ys with
          | Ok b => Ok (a ++ b)
          | Raise e => Raise e
          end
      | Raise e => Raise e
      end
    /\ (forall a b,
           collect_image_paths fs xs = Ok a ->
           collect_image_paths fs ys = Ok b ->
           collect_image_paths fs (xs ++ ys) = Ok (a ++ b)
           /\ forall p,
               count_occ path_eq_dec (a ++ b) p
               = count_occ path_eq_dec a p + count_occ path_eq_dec b p)
    /\ (forall a b p,
           collect_image_paths fs xs = Ok a ->
           collect_image_paths fs ys = Ok b ->
           In p a -> In p b ->
           exists c,
             collect_image_paths fs (xs ++ ys) = Ok c
             /\ 2 <= count_occ path_eq_dec c p).
Proof.
  intros fs xs ys. pose proof (collect_image_paths_app fs xs ys) as Happ.
  split; [exact Happ|]. split.
  - intros a b Ha Hb. rewrite Happ, Ha, Hb. split; auto.
    intros p. apply count_occ_app.
  - intros a b p Ha Hb Hpa Hpb. exists (a ++ b).
    rewrite Happ, Ha, Hb. split; auto.
    rewrite count_occ_app.
    apply (count_occ_In path_eq_dec) in Hpa.
    apply (count_occ_In path_eq_dec) in Hpb. lia.
Qed.

Lemma collect_concatenation_witness :
  exists c,
    collect_image_paths Sample.file_system (["d"] ++ ["d/a.png"]) = Ok c
    /\ 2 <= count_occ path_eq_dec c ["d"; "a.png"].
Proof.
  apply (proj2 (proj2 (collect_concatenation Sample.file_system
                         ["d"] ["d/a.png"]))
           [["d"; "B.PNG"]; ["d"; "a"; ".h.png"]; ["d"; "a"; "x.png"];
            ["d"; "a.png"]; ["d"; "x.png"]]
           [["d"; "a.png"]]
           ["d"; "a.png"]).
  - reflexivity.
  - reflexivity.
  - simpl. auto.
  - simpl. auto.
Defined.

(** One turn of the loop, by what the file system answers. *)
Lemma collect_one_cases fs raw :
  match is_file fs (parse raw) with
  | Fails c m => collect_one fs raw = Raise (LibraryError c m)
  | Done file =>
      if file && has_image_suffix (parse raw)
      then collect_one fs raw = Ok [parse raw]
      else
        match is_dir fs (parse raw) with
        | Fails c m => collect_one fs raw = Raise (LibraryError c m)
        | Done true =>
            match rglob_star fs (parse raw) with
            | Done entries =>
                collect_one fs raw
                = Ok (filter has_image_suffix (sorted entries))
            | Fails c m => collect_one fs raw = Raise (LibraryError c m)
            end
        | Done false =>
            match glob fs raw with
            | Done matches =>
                collect_one fs raw
                = Ok (filter has_image_suffix (sorted matches))
            | Fails c m => collect_one fs raw = Raise (LibraryError c m)
            end
        end
  end.
Proof.
  unfold collect_one.
  destruct (is_file fs (parse raw)) as [file|]; simpl; auto.
  destruct (file && has_image_suffix (parse raw)); auto.
  destruct (is_dir fs (parse raw)) as [[|]|]; simpl; auto.
  - destruct (rglob_star fs (parse raw)); simpl; auto.
  - destruct (glob fs raw); simpl; auto.
Qed.

(** Every branch filters on the suffix. *)
Lemma collect_one_image_suffix fs raw found :
  collect_one fs raw = Ok found ->
  Forall (fun p => has_image_suffix p = true) found.
Proof.
  pose proof (collect_one_cases fs raw) as H.
  destruct (is_file fs (parse raw)) as [file|]; [|rewrite H; discriminate].
  destruct (file && has_image_suffix (parse raw)) eqn:E1.
  - rewrite H. intros [= <-]. apply andb_prop in E1.
    constructor; [tauto | constructor].
  - destruct (is_dir fs (parse raw)) as [[|]|]; [| |rewrite H; discriminate].
    + destruct (rglob_star fs (parse raw)); rewrite H; [|discriminate].
      intros [= <-]. apply Forall_forall. intros p Hp.
      now apply filter_In in Hp.
    + destruct (glob fs raw); rewrite H; [|discriminate].
      intros [= <-]. apply Forall_forall. intros p Hp.
      now apply filter_In in Hp.
Qed.

Lemma collect_loop_image_suffix fs inputs :
  forall paths found,
    Forall (fun p => has_image_suffix p = true) paths ->
    collect_loop fs paths inputs = Ok found ->
    Forall (fun p => has_image_suffix p = true) found.
Proof.
  induction inputs as [|raw rest IH]; intros paths found Hp; simpl.
  - now intros [= <-].
  - destruct (collect_one fs raw) as [one|] eqn:E; [|discriminate].
    apply IH. apply Forall_app. split; auto.
    eapply collect_one_image_suffix; eauto.
Qed.

Lemma collected_paths_have_image_suffix fs inputs found :
  collect_image_paths fs inputs = Ok found ->
  Forall (fun p => has_image_suffix p = true) found.
Proof. apply collect_loop_image_suffix. constructor. Qed.

(** C5, at the failing input.  The directory d has a sub-directory named
    x.png; collecting from "d" emits d/x.png, which has a recognized suffix
    but is a directory, not a regular file: the directory branch (like the
    glob branch) never asks [is_file]. *)
Theorem collect_emits_directory_named_like_image :
  collect_image_paths Sample.file_system ["d"]
  = Ok [["d"; "B.PNG"]; ["d"; "a"; ".h.png"]; ["d"; "a"; "x.png"];
        ["d"; "a.png"]; ["d"; "x.png"]]
  /\ is_file Sample.file_system ["d"; "x.png"] = Done false
  /\ is_dir Sample.file_system ["d"; "x.png"] = Done true.
Proof. repeat split; reflexivity. Qed.

(** ** Order on names and paths *)

Lemma string_compare_refl s : String.compare s s = Eq.
Proof.
  induction s as [|c r IH]; simpl; auto.
  unfold Ascii.compare. now rewrite N.compare_refl.
Qed.

Lemma string_ltb_irrefl s : String.ltb s s = false.
Proof. unfold String.ltb. now rewrite string_compare_refl. Qed.

Lemma string_compare_lt_trans a :
  forall b c,
    String.compare a b = Lt -> String.compare b c = Lt ->
    String.compare a c = Lt.
Proof.
  induction a as [|x a IH]; intros [|y b] [|z c]; simpl; try discriminate; auto.
  unfold Ascii.compare.
  destruct (N.compare_spec (N_of_ascii x) (N_of_ascii y)) as [Exy|Lxy|Gxy];
    try discriminate;
    destruct (N.compare_spec (N_of_ascii y) (N_of_ascii z)) as [Eyz|Lyz|Gyz];
    try discriminate; intros H1 H2.
  - rewrite Exy, Eyz, N.compare_refl. eauto.
  - rewrite Exy. now rewrite (proj2 (N.compare_lt_iff _ _) Lyz).
  - rewrite <- Eyz. now rewrite (proj2 (N.compare_lt_iff _ _) Lxy).
  - now rewrite (proj2 (N.compare_lt_iff _ _) (N.lt_trans _ _ _ Lxy Lyz)).
Qed.

Lemma string_ltb_lt a b : String.ltb a b = true <-> String.compare a b = Lt.
Proof. unfold String.ltb. destruct (String.compare a b); split; congruence. Qed.

Lemma string_ltb_trans a b c :
  String.ltb a b = true -> String.ltb b c = true -> String.ltb a c = true.
Proof. rewrite !string_ltb_lt. apply string_compare_lt_trans. Qed.

Lemma string_ltb_total a b :
  String.ltb a b = false -> String.ltb b a = false -> a = b.
Proof.
  unfold String.ltb. rewrite (String.compare_antisym a b).
  destruct (String.compare b a) eqn:E; simpl; try discriminate.
  intros _ _. symmetry. now apply String.compare_eq_iff.
Qed.

Lemma string_ltb_asym a b : String.ltb a b = true -> String.ltb b a = false.
Proof.
  intros H. destruct (String.ltb b a) eqn:E; auto.
  pose proof (string_ltb_trans _ _ _ H E) as Hc.
  now rewrite string_ltb_irrefl in Hc.
Qed.

Lemma string_ltb_neq a b : String.ltb a b = true -> String.eqb a b = false.
Proof.
  intros H. destruct (String.eqb_spec a b) as [->|]; auto.
  now rewrite string_ltb_irrefl in H.
Qed.

Lemma path_ltb_irrefl p : path_ltb p p = false.
Proof. induction p as [|a p IH]; simpl; auto. now rewrite String.eqb_refl. Qed.

Lemma path_ltb_trans p :
  forall q r, path_ltb p q = true -> path_ltb q r = true -> path_ltb p r = true.
Proof.
  induction p as [|a p IH]; intros [|b q] [|c r]; simpl; try discriminate; auto.
  destruct (String.eqb_spec a b) as [->|Hab].
  - destruct (String.eqb_spec b c) as [->|Hbc]; eauto.
  - destruct (String.eqb_spec b c) as [->|Hbc].
    + destruct (String.eqb_spec a c); [contradiction | auto].
    + intros H1 H2. pose proof (string_ltb_trans _ _ _ H1 H2) as H3.
      now rewrite (string_ltb_neq _ _ H3).
Qed.

Lemma path_ltb_total p :
  forall q, path_ltb p q = false -> path_ltb q p = false -> p = q.
Proof.
  induction p as [|a p IH]; intros [|b q]; simpl; try discriminate; auto.
  rewrite (String.eqb_sym b a).
  destruct (String.eqb_spec a b) as [->|Hab].
  - intros H1 H2. f_equal. auto.
  - intros H1 H2. elim Hab. now apply string_ltb_total.
Qed.

Lemma path_ltb_asym p q : path_ltb p q = true -> path_ltb q p = false.
Proof.
  intros H. destruct (path_ltb q p) eqn:E; auto.
  pose proof (path_ltb_trans _ _ _ H E) as Hc.
  now rewrite path_ltb_irrefl in Hc.
Qed.

(** "Not after" is transitive for a strict total order. *)
Lemma path_not_after_trans a b c :
  path_ltb b a = false -> path_ltb c b = false -> path_ltb c a = false.
Proof.
  intros Hab Hbc. destruct (path_ltb c a) eqn:Hca; auto.
  destruct (path_ltb a b) eqn:E.
  - now rewrite (path_ltb_trans _ _ _ Hca E) in Hbc.
  - rewrite (path_ltb_total _ _ E Hab) in Hca. congruence.
Qed.

Lemma path_ltb_app p a b : path_ltb (p ++ a) (p ++ b) = path_ltb a b.
Proof. induction p as [|x p IH]; simpl; auto. now rewrite String.eqb_refl. Qed.

(** ** Facts about [sorted] *)

Section SortedFacts.
Variable A : Type.
Variable ltb : A -> A -> bool.

Lemma insert_sorted_perm x xs :
  Permutation (x :: xs) (insert_sorted ltb x xs).
Proof.
  induction xs as [|y rest IH]; simpl; auto.
  destruct (ltb y x); auto.
  rewrite perm_swap. now constructor.
Qed.

Lemma sorted_with_perm xs : Permutation xs (sorted_with ltb xs).
Proof.
  induction xs as [|x rest IH]; simpl; auto.
  rewrite <- insert_sorted_perm. now constructor.
Qed.

Hypothesis asym : forall a b, ltb a b = true -> ltb b a = false.
Hypothesis not_after_trans :
  forall a b c, ltb b a = false -> ltb c b = false -> ltb c a = false.

Lemma insert_sorted_ordered x xs :
  StronglySorted (not_after ltb) xs ->
  StronglySorted (not_after ltb) (insert_sorted ltb x xs).
Proof.
  induction 1 as [|y rest Hrest IH Hy]; simpl.
  - repeat constructor.
  - destruct (ltb y x) eqn:E.
    + constructor; auto.
      rewrite <- insert_sorted_perm. constructor; auto.
      now apply asym.
    + constructor; [now constructor|].
      constructor; [exact E|].
      eapply Forall_impl; [|exact Hy]. intros z Hz.
      exact (@not_after_trans _ _ _ E Hz).
Qed.

Lemma sorted_with_ordered xs : StronglySorted (not_after ltb) (sorted_with ltb xs).
Proof.
  induction xs as [|x rest IH]; simpl; [constructor|].
  now apply insert_sorted_ordered.
Qed.

Hypothesis total : forall a b, ltb a b = false -> ltb b a = false -> a = b.

Lemma ordered_perm_unique l1 :
  forall l2,
    StronglySorted (not_after ltb) l1 -> StronglySorted (not_after ltb) l2 ->
    Permutation l1 l2 -> l1 = l2.
Proof.
  induction l1 as [|x l1 IH]; intros l2 H1 H2 Hp.
  - now apply Permutation_nil in Hp.
  - destruct l2 as [|y l2].
    { apply Permutation_sym, Permutation_nil in Hp. discriminate. }
    inversion H1 as [|? ? S1 F1]; subst. inversion H2 as [|? ? S2 F2]; subst.
    assert (Hxy : x = y).
    { assert (Hx : In x (y :: l2)).
      { eapply Permutation_in; [exact Hp | now left]. }
      assert (Hy : In y (x :: l1)).
      { eapply Permutation_in; [apply Permutation_sym; exact Hp | now left]. }
      destruct Hx as [-> | Hx]; auto. destruct Hy as [-> | Hy]; auto.
      apply total.
      - exact (proj1 (Forall_forall _ _) F2 _ Hx).
      - exact (proj1 (Forall_forall _ _) F1 _ Hy). }
    subst y. f_equal. apply IH; auto.
    eapply Permutation_cons_inv; eauto.
Qed.

Lemma sorted_with_unique l l' :
  Permutation l l' -> StronglySorted (not_after ltb) l' -> sorted_with ltb l = l'.
Proof.
  intros Hp Hs. apply ordered_perm_unique; auto.
  - apply sorted_with_ordered.
  - rewrite <- Hp. apply Permutation_sym, sorted_with_perm.
Qed.
End SortedFacts.

(** The order in which the scan yields the entries does not matter. *)
Lemma sorted_permutation_invariant l1 l2 :
  Permutation l1 l2 -> sorted l1 = sorted l2.
Proof.
  intros Hp. unfold sorted.
  apply sorted_with_unique.
  - exact path_ltb_asym.
  - exact path_not_after_trans.
  - exact path_ltb_total.
  - rewrite Hp. apply sorted_with_perm.
  - apply sorted_with_ordered.
    + exact path_ltb_asym.
    + exact path_not_after_trans.
Qed.

(** ** Directory trees: the sorted traversal (claim C6) *)

Lemma Node_nested_ind (P : Node -> Prop) :
  P File ->
  (forall entries, Forall (fun e => P (snd e)) entries -> P (Dir entries)) ->
  forall n, P n.
Proof.
  intros HF HD. fix IH 1. intros [|entries]; [exact HF|].
  apply HD. induction entries as [|e rest IHr]; constructor;
    [apply IH | exact IHr].
Qed.

Lemma descendants_Dir entries :
  descendants (Dir entries) = flat_map entry_paths entries.
Proof. reflexivity. Qed.

Lemma sort_tree_Dir entries :
  sort_tree (Dir entries)
  = Dir (sort_entries (map (fun e => (fst e, sort_tree (snd e))) entries)).
Proof. reflexivity. Qed.

Lemma descendants_nonempty n d : In d (descendants n) -> d <> [].
Proof.
  destruct n as [|entries]; [intros []|].
  rewrite descendants_Dir. intros H. apply in_flat_map in H.
  destruct H as (e & _ & [<- | H]); [discriminate|].
  apply in_map_iff in H. destruct H as (? & <- & _). discriminate.
Qed.

Lemma flat_map_perm_pointwise (A B : Type) (f g : A -> list B) l :
  Forall (fun a => Permutation (f a) (g a)) l ->
  Permutation (flat_map f l) (flat_map g l).
Proof.
  induction 1 as [|a l Ha Hl IH]; simpl; auto.
  now apply Permutation_app.
Qed.

Lemma flat_map_after_map (A B C : Type) (f : B -> list C) (g : A -> B) l :
  flat_map f (map g l) = flat_map (fun a => f (g a)) l.
Proof. induction l as [|a l IH]; simpl; auto. now rewrite IH. Qed.

(** Sorting the directories only permutes what the traversal yields. *)
Lemma traverse_sorted_perm n :
  Permutation (descendants n) (traverse_sorted n).
Proof.
  unfold traverse_sorted.
  induction n as [|entries IH] using Node_nested_ind; [constructor|].
  rewrite sort_tree_Dir, !descendants_Dir.
  set (g := fun e : string * Node => (fst e, sort_tree (snd e))).
  transitivity (flat_map entry_paths (map g entries)).
  - rewrite flat_map_after_map.
    apply flat_map_perm_pointwise.
    eapply Forall_impl; [|exact IH]. intros e He.
    unfold entry_paths, g; simpl. constructor. now apply Permutation_map.
  - apply Permutation_flat_map. apply sorted_with_perm.
Qed.

Lemma StronglySorted_app (A : Type) (R : A -> A -> Prop) l1 l2 :
  StronglySorted R l1 -> StronglySorted R l2 ->
  (forall a b, In a l1 -> In b l2 -> R a b) ->
  StronglySorted R (l1 ++ l2).
Proof.
  induction 1 as [|x l1 Hs IH Hx]; intros H2 Hc; simpl; auto.
  constructor.
  - apply IH; auto. intros; apply Hc; simpl; auto.
  - apply Forall_app. split; auto.
    apply Forall_forall. intros b Hb. apply Hc; simpl; auto.
Qed.

Lemma StronglySorted_map (A B : Type) (R : A -> A -> Prop)
  (R' : B -> B -> Prop) (f : A -> B) l :
  (forall a b, R a b -> R' (f a) (f b)) ->
  StronglySorted R l -> StronglySorted R' (map f l).
Proof.
  intros Hf. induction 1 as [|x l Hs IH Hx]; simpl; constructor; auto.
  apply Forall_forall. intros b Hb. apply in_map_iff in Hb.
  destruct Hb as (a & <- & Ha). apply Hf.
  exact (proj1 (Forall_forall _ _) Hx _ Ha).
Qed.

Lemma distinct_NoDup names : distinct names = true -> NoDup names.
Proof.
  induction names as [|x rest IH]; simpl; [constructor|].
  intros H. apply andb_prop in H. destruct H as [Hx Hr].
  constructor; auto. intros Hin. apply negb_true_iff in Hx.
  assert (Hex : existsb (String.eqb x) rest = true).
  { apply existsb_exists. exists x. split; auto. apply String.eqb_refl. }
  congruence.
Qed.

Lemma name_not_after_trans (a b c : string * Node) :
  name_ltb b a = false -> name_ltb c b = false -> name_ltb c a = false.
Proof.
  unfold name_ltb. intros Hab Hbc.
  destruct (String.ltb (fst c) (fst a)) eqn:Hca; auto.
  destruct (String.ltb (fst a) (fst b)) eqn:E.
  - now rewrite (string_ltb_trans _ _ _ Hca E) in Hbc.
  - rewrite (string_ltb_total _ _ E Hab) in Hca. congruence.
Qed.

(** Entries sorted by name, with distinct names, are strictly increasing. *)
Lemma sort_entries_increasing es :
  NoDup (map fst es) ->
  StronglySorted (fun e f => String.ltb (fst e) (fst f) = true)
    (sort_entries es).
Proof.
  intros Hnd.
  assert (Hs : StronglySorted (fun e f => name_ltb f e = false)
                 (sort_entries es)).
  { apply sorted_with_ordered.
    - intros a b. apply string_ltb_asym.
    - apply name_not_after_trans. }
  assert (Hnd' : NoDup (map fst (sort_entries es))).
  { eapply Permutation_NoDup; [|exact Hnd].
    apply Permutation_map, sorted_with_perm. }
  induction Hs as [|e rest Hs IH He]; [constructor|].
  simpl in Hnd'. inversion Hnd' as [|? ? Hnot Hrest]; subst.
  constructor; auto.
  apply Forall_forall. intros f Hf.
  pose proof (proj1 (Forall_forall _ _) He _ Hf) as Hfe. unfold name_ltb in Hfe.
  destruct (String.ltb (fst e) (fst f)) eqn:E; auto.
  elim Hnot. rewrite (string_ltb_total _ _ E Hfe). now apply in_map.
Qed.

(** With increasing names and sorted contents, the traversal of a list of
    entries is strictly increasing. *)
Lemma entries_paths_increasing es :
  StronglySorted (fun e f => String.ltb (fst e) (fst f) = true) es ->
  Forall (fun e => StronglySorted (fun a b => path_ltb a b = true)
                     (descendants (snd e))) es ->
  StronglySorted (fun a b => path_ltb a b = true) (flat_map entry_paths es).
Proof.
  induction 1 as [|e rest Hs IH He]; intros Hc; cbn [flat_map]; [constructor|].
  inversion Hc as [|? ? Hce Hcr]; subst.
  apply StronglySorted_app; auto.
  - unfold entry_paths. constructor.
    + eapply StronglySorted_map; [|exact Hce].
      intros a b Hab. simpl. now rewrite String.eqb_refl.
    + apply Forall_forall. intros d Hd. apply in_map_iff in Hd.
      destruct Hd as (d' & <- & Hd'). simpl. rewrite String.eqb_refl.
      apply descendants_nonempty in Hd'. now destruct d'.
  - intros a b Ha Hb. apply in_flat_map in Hb. destruct Hb as (f & Hf & Hb).
    pose proof (proj1 (Forall_forall _ _) He _ Hf) as Hlt.
    assert (Hhead : forall e0 x, In x (entry_paths e0) ->
                                 exists x', x = fst e0 :: x').
    { intros e0 x [<- | Hx]; [now exists []|].
      apply in_map_iff in Hx. destruct Hx as (x' & <- & _). now exists x'. }
    destruct (Hhead _ _ Ha) as (a' & ->). destruct (Hhead _ _ Hb) as (b' & ->).
    simpl. now rewrite (string_ltb_neq _ _ Hlt).
Qed.

Lemma traverse_sorted_increasing n :
  distinct_names n = true ->
  StronglySorted (fun a b => path_ltb a b = true) (traverse_sorted n).
Proof.
  unfold traverse_sorted.
  induction n as [|entries IH] using Node_nested_ind; [constructor|].
  intros Hd. cbn [distinct_names] in Hd. apply andb_prop in Hd.
  destruct Hd as [Hnames Hsub].
  rewrite sort_tree_Dir, descendants_Dir.
  set (g := fun e : string * Node => (fst e, sort_tree (snd e))).
  apply entries_paths_increasing.
  - apply sort_entries_increasing.
    rewrite map_map. simpl. now apply distinct_NoDup.
  - apply Forall_forall. intros e' He'.
    apply (Permutation_in _ (Permutation_sym (sorted_with_perm name_ltb _)))
      in He'.
    apply in_map_iff in He'. destruct He' as (e & <- & He). simpl.
    apply (proj1 (Forall_forall _ _) IH _ He).
    exact (proj1 (forallb_forall _ _) Hsub _ He).
Qed.

(** What [sorted(path.rglob("*"))] is for a directory [n] reached by [p]. *)
Lemma sorted_descendants p n :
  distinct_names n = true ->
  sorted (map (app p) (descendants n)) = map (app p) (traverse_sorted n).
Proof.
  intros Hd. unfold sorted. apply sorted_with_unique.
  - exact path_ltb_asym.
  - exact path_not_after_trans.
  - exact path_ltb_total.
  - apply Permutation_map, traverse_sorted_perm.
  - eapply StronglySorted_map; [|exact (traverse_sorted_increasing _ Hd)].
    intros a b Hab. unfold not_after. rewrite path_ltb_app.
    now apply path_ltb_asym.
Qed.

(** C6. For an input that names an existing directory, the collector emits
    the entries with a recognized suffix in the order of the recursive
    traversal that takes the entries of every directory sorted by name. *)
Theorem collect_directory_sorted_traversal :
  forall (t : Tree) (select : string -> Lib (list Path)) raw entries,
    resolve t (parse raw) = Some (Dir entries) ->
    distinct_names (Dir entries) = true ->
    is_dir (file_system t select) (parse raw) = Done true
    /\ collect_image_paths (file_system t select) [raw]
       = Ok (filter has_image_suffix
               (map (app (parse raw)) (traverse_sorted (Dir entries)))).
Proof.
  intros t select raw entries Hres Hd.
  assert (Hdir : is_dir (file_system t select) (parse raw) = Done true).
  { simpl. now rewrite Hres. }
  split; [exact Hdir|].
  rewrite collect_image_paths_single. unfold collect_one.
  rewrite Hdir.
  cbn [is_file rglob_star file_system of_lib]. rewrite Hres.
  cbn [andb]. f_equal. f_equal.
  now apply sorted_descendants.
Qed.

Lemma collect_directory_sorted_traversal_witness :
  collect_image_paths Sample.file_system ["d"]
  = Ok [["d"; "B.PNG"]; ["d"; "a"; ".h.png"]; ["d"; "a"; "x.png"];
        ["d"; "a.png"]; ["d"; "x.png"]].
Proof.
  exact (proj2 (@collect_directory_sorted_traversal Sample.tree Sample.select
                  "d"
                  [("a.png", File);
                   ("b.txt", File);
                   ("a", Dir [(".h.png", File); ("x.png", File)]);
                   ("B.PNG", File);
                   ("x.png", Dir [])]
                  eq_refl eq_refl)).
Defined.

(** ** The pipeline: claims C3, C7 and C8 *)

Lemma outcome_bind (A B : Type) (m : M A) (k : A -> M B) :
  outcome_of (bind m k) =
  match outcome_of m with
  | Ok a => outcome_of (k a)
  | Raise e => Raise e
  end.
Proof.
  destruct m as [t [a|e]]; simpl; auto. now destruct (k a).
Qed.

Lemma trace_bind (A B : Type) (m : M A) (k : A -> M B) :
  trace_of (bind m k) =
  trace_of m ++ match outcome_of m with
                | Ok a => trace_of (k a)
                | Raise _ => []
                end.
Proof.
  destruct m as [t [a|e]]; simpl.
  - now destruct (k a).
  - now rewrite app_nil_r.
Qed.

Lemma run_ocr_trace w p language :
  Forall (fun ev => is_image_work ev = true) (trace_of (run_ocr w p language)).
Proof.
  unfold run_ocr, bind, emit, lift, ret, raise, of_lib.
  destruct (image_open w p) as [img|]; simpl; [|repeat constructor].
  destruct (convert w img "L") as [gray|]; simpl; [|repeat constructor].
  destruct (image_to_string w gray language); simpl; repeat constructor.
Qed.

Lemma build_loop_trace w language paths :
  forall acc,
    Forall (fun ev => is_image_work ev = true)
      (trace_of (build_loop w acc paths language)).
Proof.
  induction paths as [|p rest IH]; intros acc; cbn [build_loop].
  - constructor.
  - rewrite trace_bind. apply Forall_app. split; [apply run_ocr_trace|].
    destruct (outcome_of (run_ocr w p language)) as [text|]; [|constructor].
    destruct (split_question_answer text). apply IH.
Qed.

Lemma build_loop_outcome w language paths :
  forall acc records,
    outcome_of (build_loop w acc paths language) = Ok records
    <-> exists rs, records = acc ++ rs /\ Forall2 (reads w language) paths rs.
Proof.
  induction paths as [|p rest IH]; intros acc records; cbn [build_loop].
  - simpl. split.
    + intros [= <-]. exists []. split; [now rewrite app_nil_r | constructor].
    + intros (rs & -> & HF). inversion HF. now rewrite app_nil_r.
  - rewrite outcome_bind.
    destruct (outcome_of (run_ocr w p language)) as [text|e] eqn:E.
    + destruct (split_question_answer text) as [q a] eqn:Es.
      rewrite IH. split.
      * intros (rs & -> & HF).
        exists ({| question := q; answer := a |} :: rs). split.
        -- now rewrite <- app_assoc.
        -- constructor; auto. exists text. split; auto.
           unfold record_of. now rewrite Es.
      * intros (rs & -> & HF). inversion HF as [|? r ? rs' Hr HF']; subst.
        destruct Hr as (text' & Ht & ->). rewrite E in Ht.
        injection Ht as <-. unfold record_of. rewrite Es.
        exists rs'. split; auto. now rewrite <- app_assoc.
    + split; [discriminate|]. intros (rs & _ & HF).
      inversion HF as [|? r ? rs' Hr HF']; subst.
      destruct Hr as (text & Ht & _). congruence.
Qed.

Lemma build_questions_outcome w language paths records :
  outcome_of (build_questions w paths language) = Ok records
  <-> Forall2 (reads w language) paths records.
Proof.
  unfold build_questions. rewrite build_loop_outcome. split.
  - now intros (rs & -> & HF).
  - intros HF. now exists records.
Qed.

(** The output step, by what the serializer answers. *)
Lemma output_step_cases w args records :
  match json_dumps w {| questions := records |} (indent args) with
  | Fails c m => output_step w args records = ([], Raise (LibraryError c m))
  | Done serialized =>
      output_step w args records
      = ([output_event args records],
         of_lib match output args with
                | Some file => write_text w file serialized
                | None => print w serialized
                end)
  end.
Proof.
  unfold output_step, output_event, bind, emit, lift.
  destruct (json_dumps w {| questions := records |} (indent args)); simpl;
    auto.
  now destruct (output args).
Qed.

Lemma output_step_ok w args records trace :
  output_step w args records = (trace, Ok tt) ->
  trace = [output_event args records] /\ output_succeeds w args records.
Proof.
  pose proof (output_step_cases w args records) as H. unfold output_succeeds.
  destruct (json_dumps w {| questions := records |} (indent args))
    as [serialized|]; rewrite H; [|discriminate].
  intros [= <- Hr]. split; [reflexivity|]. exists serialized.
  split; [reflexivity|].
  destruct (output args) as [file|].
  - destruct (write_text w file serialized) as [[]|]; [auto | discriminate].
  - destruct (print w serialized) as [[]|]; [auto | discriminate].
Qed.

Lemma output_step_succeeds w args records :
  output_succeeds w args records ->
  output_step w args records = ([output_event args records], Ok tt).
Proof.
  intros (serialized & Hs & Hw).
  pose proof (output_step_cases w args records) as H. rewrite Hs in H.
  rewrite H. destruct (output args); now rewrite Hw.
Qed.

Lemma output_step_raises w args records e :
  outcome_of (output_step w args records) = Raise e ->
  exists class_name message, e = LibraryError class_name message.
Proof.
  pose proof (output_step_cases w args records) as H.
  destruct (json_dumps w {| questions := records |} (indent args))
    as [serialized|c m]; rewrite H; cbn [outcome_of snd].
  - destruct (output args) as [file|].
    + destruct (write_text w file serialized); simpl; [discriminate|].
      intros [= <-]. eauto.
    + destruct (print w serialized); simpl; [discriminate|].
      intros [= <-]. eauto.
  - intros [= <-]. eauto.
Qed.


(** [main], step by step. *)
Lemma main_steps w args :
  main w args =
  if tesseract_found w then
    match collect_image_paths (fs w) (inputs args) with
    | Raise e => ([EvWhich "tesseract"; EvCollect (inputs args)], Raise e)
    | Ok [] =>
        ([EvWhich "tesseract"; EvCollect (inputs args)],
         Raise (SystemExit no_images_message))
    | Ok (p :: ps) =>
        match build_questions w (p :: ps) (lang args) with
        | (trace, Ok records) =>
            (EvWhich "tesseract" :: EvCollect (inputs args)
               :: trace ++ trace_of (output_step w args records),
             outcome_of (output_step w args records))
        | (trace, Raise e) =>
            (EvWhich "tesseract" :: EvCollect (inputs args) :: trace, Raise e)
        end
    end
  else ([EvWhich "tesseract"], Raise (SystemExit not_found_message)).
Proof.
  unfold main, ensure_tesseract_available.
  destruct (tesseract_found w); [|reflexivity].
  cbn [bind emit ret lift app].
  destruct (collect_image_paths (fs w) (inputs args)) as [[|p ps]|e];
    try reflexivity.
  cbn [bind emit ret lift app raise].
  destruct (build_questions w (p :: ps) (lang args)) as [trace [records|e]];
    [|reflexivity].
  unfold output_step. cbn [bind emit ret lift app trace_of outcome_of].
  destruct (json_dumps w {| questions := records |} (indent args))
    as [serialized|c m]; cbn [of_lib fst snd]; [|reflexivity].
  destruct (output args) as [file|]; cbn [bind emit ret lift app fst snd].
  - now destruct (write_text w file serialized).
  - now destruct (print w serialized).
Qed.

Lemma image_work_only trace :
  Forall (fun ev => is_image_work ev = true) trace ->
  existsb is_check trace = false
  /\ existsb is_output trace = false
  /\ filter is_output trace = []
  /\ forall inputs, ~ In (EvCollect inputs) trace.
Proof.
  induction 1 as [|ev rest Hev Hrest IH]; simpl.
  - repeat split; auto.
  - destruct IH as (H1 & H2 & H3 & H4).
    destruct ev; try discriminate; simpl; repeat split; auto;
      intros inputs [Heq | Hin]; try discriminate; now apply (H4 inputs).
Qed.

Lemma output_event_is_output args records :
  is_output (output_event args records) = true.
Proof. unfold output_event. now destruct (output args). Qed.

Lemma Forall2_nth_error (A B : Type) (R : A -> B -> Prop) xs ys :
  Forall2 R xs ys ->
  forall i x, nth_error xs i = Some x ->
              exists y, nth_error ys i = Some y /\ R x y.
Proof.
  induction 1 as [|x0 y0 xs ys Hxy HF IH]; intros [|i] x; simpl;
    try discriminate.
  - intros [= <-]. now exists y0.
  - apply IH.
Qed.

(** C3. The records come one per collected path, in the same order, the
    record at each position being what the splitter makes of the OCR text
    of the path at that position; the document handed over by [main] holds
    exactly these records, and [main] hands it over whenever the engine is
    found, something is collected, every image reads and the output step
    goes through. *)
Theorem one_record_per_image :
  forall w,
    (forall paths language records,
        outcome_of (build_questions w paths language) = Ok records
        <-> Forall2 (reads w language) paths records)
    /\ (forall paths language records,
           outcome_of (build_questions w paths language) = Ok records ->
           List.length records = List.length paths
           /\ forall i p,
               nth_error paths i = Some p ->
               exists r, nth_error records i = Some r /\ reads w language p r)
    /\ (forall args trace,
           main w args = (trace, Ok tt) ->
           exists paths records,
             collect_image_paths (fs w) (inputs args) = Ok paths
             /\ Forall2 (reads w (lang args)) paths records
             /\ List.length records = List.length paths
             /\ filter is_output trace = [output_event args records])
    /\ (forall args paths records,
           tesseract_found w = true ->
           collect_image_paths (fs w) (inputs args) = Ok paths ->
           paths <> [] ->
           Forall2 (reads w (lang args)) paths records ->
           output_succeeds w args records ->
           exists trace,
             main w args = (trace, Ok tt)
             /\ filter is_output trace = [output_event args records]).
Proof.
  intros w. split; [|split; [|split]].
  - intros. apply build_questions_outcome.
  - intros paths language records H. apply build_questions_outcome in H.
    split.
    + symmetry. eapply Forall2_length; eauto.
    + eapply Forall2_nth_error; eauto.
  - intros args trace. rewrite main_steps.
    destruct (tesseract_found w); [|discriminate].
    destruct (collect_image_paths (fs w) (inputs args)) as [[|p ps]|e];
      try discriminate.
    destruct (build_questions w (p :: ps) (lang args))
      as [t [records|e]] eqn:Eb; [|discriminate].
    intros [= <- Hout]. exists (p :: ps), records.
    assert (HF : Forall2 (reads w (lang args)) (p :: ps) records).
    { apply build_questions_outcome. now rewrite Eb. }
    repeat split; auto.
    + symmetry. eapply Forall2_length; eauto.
    + pose proof (build_loop_trace w (lang args) (p :: ps) []) as Ht.
      fold (build_questions w (p :: ps) (lang args)) in Ht. rewrite Eb in Ht.
      cbn [trace_of fst] in Ht. apply image_work_only in Ht.
      destruct Ht as (_ & _ & Hf & _).
      destruct (output_step w args records) as [t' r] eqn:Eo.
      cbn [outcome_of snd] in Hout. subst r.
      destruct (@output_step_ok _ _ _ _ Eo) as [-> _].
      cbn [filter is_output trace_of fst]. rewrite filter_app, Hf. simpl.
      now rewrite output_event_is_output.
  - intros args paths records Hfound Hcollect Hsome HF Hout.
    rewrite main_steps, Hfound, Hcollect.
    destruct paths as [|p ps]; [congruence|].
    apply build_questions_outcome in HF.
    pose proof (build_loop_trace w (lang args) (p :: ps) []) as Ht.
    fold (build_questions w (p :: ps) (lang args)) in Ht.
    destruct (build_questions w (p :: ps) (lang args)) as [t [records'|e]];
      cbn [trace_of outcome_of fst snd] in *; [|discriminate].
    injection HF as ->. rewrite (@output_step_succeeds _ _ _ Hout).
    eexists. split; [reflexivity|].
    apply image_work_only in Ht. destruct Ht as (_ & _ & Hf & _).
    cbn [filter is_output trace_of fst]. rewrite filter_app, Hf. simpl.
    now rewrite output_event_is_output.
Qed.

Lemma one_record_per_image_witness :
  exists paths records,
    collect_image_paths Sample.file_system ["d/a"; "d/a.png"] = Ok paths
    /\ Forall2 (reads (Sample.world (Some "/usr/bin/tesseract")) "eng")
         paths records
    /\ List.length records = List.length paths
    /\ filter is_output
         (trace_of (main (Sample.world (Some "/usr/bin/tesseract"))
                      (Sample.args ["d/a"; "d/a.png"])))
       = [output_event (Sample.args ["d/a"; "d/a.png"]) records].
Proof.
  exact (proj1 (proj2 (proj2 (one_record_per_image
                                (Sample.world (Some "/usr/bin/tesseract")))))
           (Sample.args ["d/a"; "d/a.png"]) _ eq_refl).
Defined.

Lemma run_ocr_raises w p language e :
  outcome_of (run_ocr w p language) = Raise e ->
  e = SystemExit not_installed_message
  \/ exists class_name message, e = LibraryError class_name message.
Proof.
  unfold run_ocr, bind, emit, lift, ret, raise, of_lib.
  destruct (image_open w p) as [img|c m]; simpl.
  - destruct (convert w img "L") as [gray|c m]; simpl.
    + destruct (image_to_string w gray language) as [text| |c m]; simpl;
        intros [= <-]; eauto.
    + intros [= <-]; eauto.
  - intros [= <-]; eauto.
Qed.

Lemma build_loop_raises w language paths :
  forall acc e,
    outcome_of (build_loop w acc paths language) = Raise e ->
    e = SystemExit not_installed_message
    \/ exists class_name message, e = LibraryError class_name message.
Proof.
  induction paths as [|p rest IH]; intros acc e; cbn [build_loop].
  - discriminate.
  - rewrite outcome_bind.
    destruct (outcome_of (run_ocr w p language)) as [text|e'] eqn:E.
    + destruct (split_question_answer text). apply IH.
    + intros [= <-]. eapply run_ocr_raises; eauto.
Qed.

Lemma collect_one_raises fs raw e :
  collect_one fs raw = Raise e ->
  exists class_name message, e = LibraryError class_name message.
Proof.
  pose proof (collect_one_cases fs raw) as H.
  destruct (is_file fs (parse raw)) as [file|c m];
    [|rewrite H; intros [= <-]; eauto].
  destruct (file && has_image_suffix (parse raw)); [rewrite H; discriminate|].
  destruct (is_dir fs (parse raw)) as [[|]|c m];
    [| |rewrite H; intros [= <-]; eauto].
  - destruct (rglob_star fs (parse raw)) as [entries|c m]; rewrite H;
      [discriminate | intros [= <-]; eauto].
  - destruct (glob fs raw) as [matches|c m]; rewrite H;
      [discriminate | intros [= <-]; eauto].
Qed.

Lemma collect_loop_raises fs inputs :
  forall paths e,
    collect_loop fs paths inputs = Raise e ->
    exists class_name message, e = LibraryError class_name message.
Proof.
  induction inputs as [|raw rest IH]; intros paths e; simpl; [discriminate|].
  destruct (collect_one fs raw) as [found|e'] eqn:E; [apply IH|].
  intros [= <-]. eapply collect_one_raises; eauto.
Qed.






(** A collected image that cannot be decoded aborts the run although the
    collection is not empty: the counterexample to C8 as stated. *)
Lemma abort_with_images_collected :
  ~ (forall w args,
        tesseract_found w = true ->
        (aborts_without_output (main w args)
         <-> collect_image_paths (fs w) (inputs args) = Ok [])).
Proof.
  intros H.
  destruct (H Sample.world_corrupt (Sample.args ["d/a.png"]) eq_refl)
    as [Habort _].
  assert (Hnone : collect_image_paths Sample.file_system ["d/a.png"] = Ok []).
  { apply Habort. split; [eexists|]; reflexivity. }
  discriminate Hnone.
Qed.

(** An absolute path that names nothing is handed to [Path().glob], which
    refuses patterns with a root. *)
Lemma collect_missing_absolute_path_raises :
  is_file Sample.file_system (parse "/missing.png") = Done false
  /\ is_dir Sample.file_system (parse "/missing.png") = Done false
  /\ collect_image_paths Sample.file_system ["/missing.png"]
     = Raise (LibraryError "NotImplementedError"
                "Non-relative patterns are unsupported").
Proof. repeat split; reflexivity. Qed.

(** C8, amended.  An input raises only when one of the file-system calls
    made for it raises.  With the engine found and the collection completed,
    the run stops with "No matching image files found.", without output,
    exactly when nothing was collected; with something collected it still
    aborts, without output, when the OCR of a collected image fails. *)
Theorem abort_when_nothing_collected :
  (forall fs raw e,
      collect_one fs raw = Raise e ->
      of_lib (is_file fs (parse raw)) = Raise e
      \/ of_lib (is_dir fs (parse raw)) = Raise e
      \/ of_lib (rglob_star fs (parse raw)) = Raise e
      \/ of_lib (glob fs raw) = Raise e)
  /\ (forall w args paths,
         tesseract_found w = true ->
         collect_image_paths (fs w) (inputs args) = Ok paths ->
         (outcome_of (main w args) = Raise (SystemExit no_images_message)
          <-> paths = [])
         /\ (paths = [] -> existsb is_output (trace_of (main w args)) = false)
         /\ ((exists e,
                 outcome_of (build_questions w paths (lang args)) = Raise e) ->
             aborts_without_output (main w args))).
Proof.
  split.
  - intros fs0 raw e. pose proof (collect_one_cases fs0 raw) as H.
    destruct (is_file fs0 (parse raw)) as [file|c m];
      [|rewrite H; intros [= <-]; cbn [of_lib]; auto].
    destruct (file && has_image_suffix (parse raw)); [rewrite H; discriminate|].
    destruct (is_dir fs0 (parse raw)) as [[|]|c m];
      [| |rewrite H; intros [= <-]; cbn [of_lib]; auto].
    + destruct (rglob_star fs0 (parse raw)) as [entries|c m]; rewrite H;
        [discriminate | intros [= <-]; cbn [of_lib]; auto].
    + destruct (glob fs0 raw) as [matches|c m]; rewrite H;
        [discriminate | intros [= <-]; cbn [of_lib]; auto 6].
  - intros w args paths Hfound Hcollect.
    unfold aborts_without_output. rewrite main_steps, Hfound, Hcollect.
    destruct paths as [|p ps].
    + cbn [trace_of outcome_of fst snd]. split; [|split].
      * split; auto.
      * reflexivity.
      * intros _. split; [eexists|]; reflexivity.
    + pose proof (build_loop_trace w (lang args) (p :: ps) []) as Ht.
      pose proof (build_loop_raises w (lang args) (p :: ps) []) as Hr.
      fold (build_questions w (p :: ps) (lang args)) in Ht, Hr.
      destruct (build_questions w (p :: ps) (lang args)) as [t [records|e]];
        cbn [trace_of outcome_of fst snd] in *.
      * split; [|split].
        -- split; [|discriminate]. intros H. apply output_step_raises in H.
           destruct H as (c & m & H). discriminate H.
        -- discriminate.
        -- intros [e He]. discriminate He.
      * apply image_work_only in Ht. destruct Ht as (_ & Hout & _).
        split; [|split].
        -- split; [|discriminate].
           intros [= ->]. destruct (Hr _ eq_refl) as [Heq | (c & m & Heq)];
             discriminate Heq.
        -- discriminate.
        -- intros _. split; [now exists e|]. exact Hout.
Qed.

Lemma abort_when_nothing_collected_witness :
  outcome_of (main (Sample.world (Some "/usr/bin/tesseract"))
                (Sample.args ["d/x.png"]))
  = Raise (SystemExit no_images_message).
Proof.
  apply (proj2 (proj1 (proj2 abort_when_nothing_collected
                         (Sample.world (Some "/usr/bin/tesseract"))
                         (Sample.args ["d/x.png"])
                         [] eq_refl eq_refl))).
  reflexivity.
Defined.

Lemma split_at_answer_marker_witness :
  exists pre rest,
    nth 1 (stripped_lines ("What is 2+2?" ++ String LF "Answer: 4")) ""
    = (pre ++ rest)%string
    /\ lower pre = "answer:"
    /\ split_question_answer ("What is 2+2?" ++ String LF "Answer: 4")
       = (strip (join " "
                   (firstn 1 (stripped_lines
                                ("What is 2+2?" ++ String LF "Answer: 4")))),
          strip (join " "
                   (match strip rest with
                    | EmptyString => []
                    | fragment => [fragment]
                    end
                      ++ skipn 2 (stripped_lines
                                    ("What is 2+2?" ++ String LF "Answer: 4"))))).
Proof.
  exact (proj1 split_at_answer_marker
           ("What is 2+2?" ++ String LF "Answer: 4")%string 1 "answer:"
           eq_refl eq_refl).
Defined.

Lemma split_without_answer_marker_witness :
  snd (split_question_answer
         ("Q: Define entropy" ++ String LF "A measure of disorder"))
  = join " " ["A measure of disorder"].
Proof.
  refine (proj1 (proj1 split_without_answer_marker
                   ("Q: Define entropy" ++ String LF "A measure of disorder")%string
                   "Q: Define entropy" ["A measure of disorder"]
                   eq_refl _ eq_refl)).
  discriminate.
Defined.

Lemma split_at_most_one_line_witness :
  split_question_answer "Q: only a question" = ("Q: only a question", "").
Proof.
  exact (proj2 (proj2 (split_at_most_one_line "Q: only a question"))
           "Q: only a question" eq_refl eq_refl).
Defined.

(** ** More on the pipeline: order of work, first failure, exit messages *)

Lemma run_ocr_events w p language :
  (exists later,
      trace_of (run_ocr w p language) ++ later = image_events language p)
  /\ (forall text,
         outcome_of (run_ocr w p language) = Ok text ->
         trace_of (run_ocr w p language) = image_events language p).
Proof.
  unfold run_ocr, bind, emit, lift, ret, raise, of_lib, image_events.
  destruct (image_open w p) as [img|]; simpl.
  - destruct (convert w img "L") as [gray|]; simpl.
    + destruct (image_to_string w gray language); simpl; split;
        try (now exists []); try discriminate; auto.
    + split; [now exists [EvOcr p language] | discriminate].
  - split; [now exists [EvOcr p language] | discriminate].
Qed.

Lemma build_loop_events w language paths :
  forall acc,
    (exists later,
        trace_of (build_loop w acc paths language) ++ later
        = flat_map (image_events language) paths)
    /\ (forall records,
           outcome_of (build_loop w acc paths language) = Ok records ->
           trace_of (build_loop w acc paths language)
           = flat_map (image_events language) paths).
Proof.
  induction paths as [|p rest IH]; intros acc; cbn [build_loop flat_map].
  - split; [now exists [] | reflexivity].
  - rewrite trace_bind, outcome_bind.
    destruct (run_ocr_events w p language) as [[later Hlater] Hfull].
    destruct (outcome_of (run_ocr w p language)) as [text|e].
    + rewrite (Hfull text eq_refl).
      destruct (split_question_answer text) as [q a].
      destruct (IH (acc ++ [{| question := q; answer := a |}]))
        as [[later' Hl'] Hf'].
      split.
      * exists later'. now rewrite <- app_assoc, Hl'.
      * intros records H. now rewrite (Hf' records H).
    + split; [|discriminate].
      exists (later ++ flat_map (image_events language) rest).
      now rewrite app_nil_r, app_assoc, Hlater.
Qed.

(** X1. The images are worked on one at a time in the order collected, each
    opened and then read: what a run did to images is always an initial
    segment of open 1, read 1, open 2, read 2, ..., the whole of it when
    the records are returned.  A run of [main] that ends normally did
    exactly: the engine check, the collection, that sequence, the output. *)
Theorem images_processed_in_collection_order :
  forall w,
    (forall paths language,
        exists later,
          trace_of (build_questions w paths language) ++ later
          = flat_map (image_events language) paths)
    /\ (forall paths language records,
           outcome_of (build_questions w paths language) = Ok records ->
           trace_of (build_questions w paths language)
           = flat_map (image_events language) paths)
    /\ (forall args trace,
           main w args = (trace, Ok tt) ->
           exists paths records,
             collect_image_paths (fs w) (inputs args) = Ok paths
             /\ outcome_of (build_questions w paths (lang args)) = Ok records
             /\ trace
                = EvWhich "tesseract" :: EvCollect (inputs args)
                    :: flat_map (image_events (lang args)) paths
                    ++ [output_event args records]).
Proof.
  intros w. split; [|split].
  - intros paths language. apply (build_loop_events w language paths []).
  - intros paths language. apply (build_loop_events w language paths []).
  - intros args trace. rewrite main_steps.
    destruct (tesseract_found w); [|discriminate].
    destruct (collect_image_paths (fs w) (inputs args)) as [[|p ps]|e];
      try discriminate.
    destruct (build_questions w (p :: ps) (lang args))
      as [t [records|e]] eqn:Eb; [|discriminate].
    destruct (output_step w args records) as [t' r] eqn:Eo.
    cbn [trace_of outcome_of fst snd]. intros [= <- ->].
    destruct (@output_step_ok _ _ _ _ Eo) as [-> _].
    exists (p :: ps), records.
    split; [reflexivity|]. split; [now rewrite Eb|].
    pose proof (proj2 (build_loop_events w (lang args) (p :: ps) []) records)
      as Ht.
    fold (build_questions w (p :: ps) (lang args)) in Ht. rewrite Eb in Ht.
    now rewrite <- (Ht eq_refl).
Qed.

Lemma images_processed_in_collection_order_witness :
  exists paths records,
    collect_image_paths Sample.file_system ["d/a"; "d/a.png"] = Ok paths
    /\ outcome_of (build_questions (Sample.world (Some "/usr/bin/tesseract"))
                     paths "eng") = Ok records
    /\ trace_of (main (Sample.world (Some "/usr/bin/tesseract"))
                   (Sample.args ["d/a"; "d/a.png"]))
       = EvWhich "tesseract" :: EvCollect ["d/a"; "d/a.png"]
           :: flat_map (image_events "eng") paths
           ++ [output_event (Sample.args ["d/a"; "d/a.png"]) records].
Proof.
  exact (proj2 (proj2 (images_processed_in_collection_order
                         (Sample.world (Some "/usr/bin/tesseract"))))
           (Sample.args ["d/a"; "d/a.png"]) _ eq_refl).
Defined.

Lemma build_loop_stops w language p after e :
  outcome_of (run_ocr w p language) = Raise e ->
  forall before acc,
    Forall (readable w language) before ->
    outcome_of (build_loop w acc (before ++ p :: after) language) = Raise e
    /\ trace_of (build_loop w acc (before ++ p :: after) language)
       = flat_map (image_events language) before
           ++ trace_of (run_ocr w p language).
Proof.
  intros Hp. induction before as [|q before IH]; intros acc Hall;
    cbn [app build_loop flat_map].
  - rewrite outcome_bind, trace_bind, Hp. now rewrite app_nil_r.
  - inversion Hall as [|? ? [text Hq] Hrest]; subst.
    rewrite outcome_bind, trace_bind, Hq.
    rewrite (proj2 (run_ocr_events w q language) text Hq).
    destruct (split_question_answer text) as [qu an].
    destruct (IH (acc ++ [{| question := qu; answer := an |}]) Hrest)
      as [Ho Ht].
    split; [exact Ho|]. now rewrite Ht, <- app_assoc.
Qed.

(** X2. The first image that does not read ends the loop with its own
    exception: the images before it were opened and read in order, the
    failing one was opened and, only if it opened and converted, handed to
    the engine, whose failure is then the exception; no later image was
    touched; a run of [main] ends the same way, without output. *)
Theorem first_unreadable_image_stops_the_run :
  forall w before p after language e,
    Forall (readable w language) before ->
    outcome_of (run_ocr w p language) = Raise e ->
    outcome_of (build_questions w (before ++ p :: after) language) = Raise e
    /\ trace_of (build_questions w (before ++ p :: after) language)
       = flat_map (image_events language) before
           ++ trace_of (run_ocr w p language)
    /\ match image_open w p with
       | Fails class_name message =>
           trace_of (run_ocr w p language) = [EvOpen p]
           /\ e = LibraryError class_name message
       | Done img =>
           match convert w img "L" with
           | Fails class_name message =>
               trace_of (run_ocr w p language) = [EvOpen p]
               /\ e = LibraryError class_name message
           | Done grayscale_image =>
               trace_of (run_ocr w p language) = [EvOpen p; EvOcr p language]
               /\ match image_to_string w grayscale_image language with
                  | Recognized _ => False
                  | TesseractNotFoundError =>
                      e = SystemExit not_installed_message
                  | OcrFails class_name message =>
                      e = LibraryError class_name message
                  end
           end
       end
    /\ (forall args,
           tesseract_found w = true ->
           collect_image_paths (fs w) (inputs args)
           = Ok (before ++ p :: after) ->
           lang args = language ->
           main w args
           = (EvWhich "tesseract" :: EvCollect (inputs args)
                :: flat_map (image_events language) before
                ++ trace_of (run_ocr w p language),
              Raise e)).
Proof.
  intros w before p after language e Hall Hp.
  destruct (@build_loop_stops w language p after e Hp before [] Hall)
    as [Ho Ht].
  fold (build_questions w (before ++ p :: after) language) in Ho, Ht.
  split; [exact Ho|]. split; [exact Ht|]. split.
  - clear Ho Ht. revert Hp.
    unfold run_ocr, bind, emit, lift, ret, raise, of_lib.
    destruct (image_open w p) as [img|]; simpl;
      [|intros [= <-]; split; reflexivity].
    destruct (convert w img "L") as [gray|]; simpl;
      [|intros [= <-]; split; reflexivity].
    destruct (image_to_string w gray language); simpl;
      [discriminate | |]; intros [= <-]; split; reflexivity.
  - intros args Hfound Hcollect <-. rewrite main_steps, Hfound, Hcollect.
    destruct (before ++ p :: after) as [|x xs] eqn:E.
    + destruct before; discriminate E.
    + destruct (build_questions w (x :: xs) (lang args)) as [t [r|e']];
        cbn [outcome_of trace_of fst snd] in Ho, Ht; [discriminate|].
      injection Ho as ->. now rewrite Ht.
Qed.

Lemma first_unreadable_image_stops_the_run_witness :
  main Sample.world_corrupt (Sample.args ["d/a"; "d/a.png"; "d/B.PNG"])
  = (EvWhich "tesseract" :: EvCollect ["d/a"; "d/a.png"; "d/B.PNG"]
       :: flat_map (image_events "eng")
            [["d"; "a"; ".h.png"]; ["d"; "a"; "x.png"]]
       ++ trace_of (run_ocr Sample.world_corrupt ["d"; "a.png"] "eng"),
     Raise (LibraryError "UnidentifiedImageError"
              "cannot identify image file")).
Proof.
  refine (proj2 (proj2 (proj2
            (@first_unreadable_image_stops_the_run
               Sample.world_corrupt
               [["d"; "a"; ".h.png"]; ["d"; "a"; "x.png"]]
               ["d"; "a.png"] [["d"; "B.PNG"]] "eng"
               (LibraryError "UnidentifiedImageError"
                  "cannot identify image file") _ eq_refl)))
            (Sample.args ["d/a"; "d/a.png"; "d/B.PNG"])
            eq_refl eq_refl eq_refl).
  repeat constructor; eexists; reflexivity.
Defined.

(** X3. A run ends with [SystemExit] for one of three reasons only, each
    with its own message: the engine is not on PATH; it is, and nothing was
    collected; it is, something was collected, and the engine was then
    reported missing while an image was read.  Collecting paths never ends
    with [SystemExit]. *)
Theorem exit_messages :
  forall w args,
    (forall message,
        outcome_of (main w args) = Raise (SystemExit message) ->
        (message = not_found_message /\ tesseract_found w = false)
        \/ (message = no_images_message
            /\ tesseract_found w = true
            /\ collect_image_paths (fs w) (inputs args) = Ok [])
        \/ (message = not_installed_message
            /\ tesseract_found w = true
            /\ exists paths,
                collect_image_paths (fs w) (inputs args) = Ok paths
                /\ paths <> []
                /\ outcome_of (build_questions w paths (lang args))
                   = Raise (SystemExit not_installed_message)))
    /\ (forall message,
           collect_image_paths (fs w) (inputs args)
           <> Raise (SystemExit message)).
Proof.
  intros w args. split.
  - intros message. rewrite main_steps.
    destruct (tesseract_found w).
    + destruct (collect_image_paths (fs w) (inputs args))
        as [[|p ps]|e] eqn:Ec; cbn [outcome_of snd].
      * intros [= <-]. right. left. repeat split.
      * pose proof (build_loop_raises w (lang args) (p :: ps) []) as Hr.
        fold (build_questions w (p :: ps) (lang args)) in Hr.
        destruct (build_questions w (p :: ps) (lang args))
          as [t [r|e]] eqn:Eb; cbn [outcome_of snd] in *.
        { intros H. apply output_step_raises in H.
          destruct H as (c & m & H). discriminate H. }
        intros [= ->].
        destruct (Hr _ eq_refl) as [Heq | (c & m & Heq)]; [|discriminate].
        injection Heq as ->. right. right.
        split; [reflexivity|]. split; [reflexivity|].
        exists (p :: ps). split; [reflexivity|]. split; [discriminate|].
        now rewrite Eb.
      * intros [= ->]. apply collect_loop_raises in Ec.
        destruct Ec as (c & m & Heq). discriminate.
    + cbn [outcome_of snd]. intros [= <-]. left. split; reflexivity.
  - intros message H. apply collect_loop_raises in H.
    destruct H as (c & m & Heq). discriminate.
Qed.

Lemma exit_messages_witness :
  (no_images_message = not_found_message
   /\ tesseract_found (Sample.world (Some "/usr/bin/tesseract")) = false)
  \/ (no_images_message = no_images_message
      /\ tesseract_found (Sample.world (Some "/usr/bin/tesseract")) = true
      /\ collect_image_paths Sample.file_system ["d/x.png"] = Ok [])
  \/ (no_images_message = not_installed_message
      /\ tesseract_found (Sample.world (Some "/usr/bin/tesseract")) = true
      /\ exists paths,
          collect_image_paths Sample.file_system ["d/x.png"] = Ok paths
          /\ paths <> []
          /\ outcome_of (build_questions
                           (Sample.world (Some "/usr/bin/tesseract"))
                           paths "eng")
             = Raise (SystemExit not_installed_message)).
Proof.
  exact (proj1 (exit_messages (Sample.world (Some "/usr/bin/tesseract"))
                  (Sample.args ["d/x.png"]))
           no_images_message eq_refl).
Defined.

(** ** More on the path collector *)

(** X4. Whatever the inputs and the file system, every path the collector
    returns has a suffix that, lower-cased, is one of the six image
    extensions: all three branches filter on it. *)
Theorem every_collected_path_has_image_suffix :
  forall fs inputs found,
    collect_image_paths fs inputs = Ok found ->
    forall p,
      In p found ->
      exists ext, In ext IMAGE_EXTENSIONS /\ lower (suffix p) = ext.
Proof.
  intros fs0 inputs found H p Hp.
  apply collect_loop_image_suffix in H; [|constructor].
  pose proof (proj1 (Forall_forall _ _) H p Hp) as Hs.
  unfold has_image_suffix in Hs. apply existsb_exists in Hs.
  destruct Hs as (ext & Hin & Heq). apply String.eqb_eq in Heq.
  exists ext. auto.
Qed.

Lemma every_collected_path_has_image_suffix_witness :
  exists ext, In ext IMAGE_EXTENSIONS /\ lower (suffix ["d"; "B.PNG"]) = ext.
Proof.
  apply (@every_collected_path_has_image_suffix Sample.file_system
           ["d"; "d/a.png"]
           [["d"; "B.PNG"]; ["d"; "a"; ".h.png"]; ["d"; "a"; "x.png"];
            ["d"; "a.png"]; ["d"; "x.png"]; ["d"; "a.png"]]
           eq_refl ["d"; "B.PNG"]).
  simpl. auto.
Defined.

Lemma StronglySorted_filter (A : Type) (R : A -> A -> Prop) f l :
  StronglySorted R l -> StronglySorted R (filter f l).
Proof.
  induction 1 as [|x l Hs IH Hx]; simpl; [constructor|].
  destruct (f x); auto. constructor; auto.
  apply Forall_forall. intros y Hy. apply filter_In in Hy.
  exact (proj1 (Forall_forall _ _) Hx _ (proj1 Hy)).
Qed.

Lemma sorted_is_ordered xs : StronglySorted (not_after path_ltb) (sorted xs).
Proof.
  apply sorted_with_ordered.
  - exact path_ltb_asym.
  - exact path_not_after_trans.
Qed.

(** X5. What one input contributes is in path order: no path of the run is
    before an earlier path of the same run, whichever branch produced it. *)
Theorem each_input_contributes_in_path_order :
  forall fs raw found,
    collect_image_paths fs [raw] = Ok found ->
    StronglySorted (not_after path_ltb) found.
Proof.
  intros fs0 raw found. rewrite collect_image_paths_single.
  pose proof (collect_one_cases fs0 raw) as H.
  destruct (is_file fs0 (parse raw)) as [file|c m];
    [|rewrite H; discriminate].
  destruct (file && has_image_suffix (parse raw)).
  - rewrite H. intros [= <-]. repeat constructor.
  - destruct (is_dir fs0 (parse raw)) as [[|]|c m];
      [| |rewrite H; discriminate].
    + destruct (rglob_star fs0 (parse raw)) as [entries|c m]; rewrite H;
        [|discriminate].
      intros [= <-]. apply StronglySorted_filter, sorted_is_ordered.
    + destruct (glob fs0 raw) as [matches|c m]; rewrite H; [|discriminate].
      intros [= <-]. apply StronglySorted_filter, sorted_is_ordered.
Qed.

Lemma each_input_contributes_in_path_order_witness :
  StronglySorted (not_after path_ltb)
    [["d"; "B.PNG"]; ["d"; "a"; ".h.png"]; ["d"; "a"; "x.png"];
     ["d"; "a.png"]; ["d"; "x.png"]].
Proof.
  exact (@each_input_contributes_in_path_order Sample.file_system "d" _
           eq_refl).
Defined.

Lemma collect_one_scan_order fs1 fs2 raw :
  (forall p, is_file fs1 p = is_file fs2 p) ->
  (forall p, is_dir fs1 p = is_dir fs2 p) ->
  (forall p, same_matches (rglob_star fs1 p) (rglob_star fs2 p)) ->
  (forall pattern,
      same_matches (glob_select fs1 pattern) (glob_select fs2 pattern)) ->
  collect_one fs1 raw = collect_one fs2 raw.
Proof.
  intros Hf Hd Hr Hg. unfold collect_one. rewrite Hf, Hd.
  destruct (is_file fs2 (parse raw)) as [file|]; simpl; auto.
  destruct (file && has_image_suffix (parse raw)); auto.
  destruct (is_dir fs2 (parse raw)) as [[|]|]; simpl; auto.
  - specialize (Hr (parse raw)). unfold same_matches in Hr.
    destruct (rglob_star fs1 (parse raw)) as [a|c1 m1],
             (rglob_star fs2 (parse raw)) as [b|c2 m2]; try contradiction;
      simpl.
    + now rewrite (sorted_permutation_invariant Hr).
    + now destruct Hr as [-> ->].
  - unfold glob. destruct (negb (truthy raw)); auto.
    destruct (anchored (parse raw)); auto.
    specialize (Hg raw). unfold same_matches in Hg.
    destruct (glob_select fs1 raw) as [a|c1 m1],
             (glob_select fs2 raw) as [b|c2 m2]; try contradiction; simpl.
    + now rewrite (sorted_permutation_invariant Hg).
    + now destruct Hg as [-> ->].
Qed.

(** X6. The result does not depend on the order in which the file system
    lists entries: two file systems that agree on what is a file and what is
    a directory, and whose scans and glob matches are the same up to order
    (or fail alike), give the same list of paths (or the same exception). *)
Theorem result_independent_of_scan_order :
  forall fs1 fs2 inputs,
    (forall p, is_file fs1 p = is_file fs2 p) ->
    (forall p, is_dir fs1 p = is_dir fs2 p) ->
    (forall p, same_matches (rglob_star fs1 p) (rglob_star fs2 p)) ->
    (forall pattern,
        same_matches (glob_select fs1 pattern) (glob_select fs2 pattern)) ->
    collect_image_paths fs1 inputs = collect_image_paths fs2 inputs.
Proof.
  intros fs1 fs2 inputs Hf Hd Hr Hg. unfold collect_image_paths.
  generalize (@nil Path). induction inputs as [|raw rest IH]; intros paths;
    simpl; auto.
  rewrite (collect_one_scan_order fs1 fs2 raw Hf Hd Hr Hg).
  destruct (collect_one fs2 raw); auto.
Qed.

Lemma result_independent_of_scan_order_witness :
  collect_image_paths Sample.file_system ["d"; "d/a"]
  = collect_image_paths sample_scanned_backwards ["d"; "d/a"].
Proof.
  apply (@result_independent_of_scan_order Sample.file_system
           sample_scanned_backwards ["d"; "d/a"]).
  - reflexivity.
  - reflexivity.
  - intros p. simpl.
    destruct (resolve Sample.tree p) as [[|entries]|]; simpl;
      try constructor.
    apply Permutation_rev.
  - intros pattern. simpl. constructor.
Defined.

Lemma child_in_entries es x c :
  distinct (map fst es) = true ->
  (child es x = Some c <-> In (x, c) es).
Proof.
  induction es as [|[n c0] es IH]; simpl.
  - intros _. split; [discriminate | contradiction].
  - intros H. apply andb_prop in H. destruct H as [Hn Hrest].
    apply negb_true_iff in Hn.
    destruct (String.eqb_spec n x) as [->|Hneq].
    + split.
      * intros [= <-]. now left.
      * intros [[= <-] | Hin]; auto.
        assert (Hex : existsb (String.eqb x) (map fst es) = true).
        { apply existsb_exists. exists x. split; [|apply String.eqb_refl].
          change x with (fst (x, c)). now apply in_map. }
        congruence.
    + rewrite (IH Hrest). split; auto.
      intros [[= Heq _] | Hin]; [contradiction | exact Hin].
Qed.

(** What the scan of a directory yields: every non-empty relative location
    at which there is an entry. *)
Lemma descendants_lookup n :
  distinct_names n = true ->
  forall rel,
    In rel (descendants n)
    <-> rel <> [] /\ exists m, lookup n rel = Some m.
Proof.
  induction n as [|entries IH] using Node_nested_ind; intros Hd rel.
  - simpl. split; [contradiction|]. intros [Hne [m Hm]].
    destruct rel; [congruence | discriminate].
  - cbn [distinct_names] in Hd. apply andb_prop in Hd.
    destruct Hd as [Hnames Hsub].
    rewrite descendants_Dir, in_flat_map. split.
    + intros ([x c] & Hin & Hrel). unfold entry_paths in Hrel. simpl in Hrel.
      pose proof (proj2 (child_in_entries entries x c Hnames) Hin) as Hc.
      destruct Hrel as [<- | Hrel].
      * split; [discriminate|]. exists c. simpl. now rewrite Hc.
      * apply in_map_iff in Hrel. destruct Hrel as (rel' & <- & Hrel').
        split; [discriminate|].
        pose proof (proj1 (Forall_forall _ _) IH _ Hin) as IHc. simpl in IHc.
        pose proof (proj1 (forallb_forall _ _) Hsub _ Hin) as Hdc.
        simpl in Hdc.
        destruct (proj1 (IHc Hdc rel') Hrel') as [_ [m Hm]].
        exists m. simpl. now rewrite Hc.
    + intros [Hne [m Hm]]. destruct rel as [|x rest]; [congruence|].
      simpl in Hm. destruct (child entries x) as [c|] eqn:Hc; [|discriminate].
      pose proof (proj1 (child_in_entries entries x c Hnames) Hc) as Hin.
      exists (x, c). split; [exact Hin|]. unfold entry_paths. simpl.
      destruct rest as [|y rest']; [now left|]. right.
      apply in_map.
      pose proof (proj1 (Forall_forall _ _) IH _ Hin) as IHc. simpl in IHc.
      pose proof (proj1 (forallb_forall _ _) Hsub _ Hin) as Hdc.
      simpl in Hdc.
      apply (IHc Hdc). split; [discriminate|]. now exists m.
Qed.

Lemma increasing_NoDup l :
  StronglySorted (fun a b => path_ltb a b = true) l -> NoDup l.
Proof.
  induction 1 as [|x l Hs IH Hx]; constructor; auto.
  intros Hin. pose proof (proj1 (Forall_forall _ _) Hx _ Hin) as Hlt.
  cbv beta in Hlt. now rewrite path_ltb_irrefl in Hlt.
Qed.

Lemma NoDup_map_prefix (p : Path) (l : list (list string)) :
  NoDup l -> NoDup (map (app p) l).
Proof.
  induction 1 as [|x l Hx Hl IH]; simpl; constructor; auto.
  intros Hin. apply in_map_iff in Hin. destruct Hin as (y & Heq & Hy).
  apply app_inv_head in Heq. now subst y.
Qed.

(** X7. For an input that names a directory, the result holds exactly the
    paths input/rel, for every non-empty relative location rel at which
    there is an entry (file or directory, at any depth) whose name has a
    recognized suffix, and holds each of them once. *)
Theorem directory_input_collects_every_match_once :
  forall (t : Tree) (select : string -> Lib (list Path)) raw entries,
    resolve t (parse raw) = Some (Dir entries) ->
    distinct_names (Dir entries) = true ->
    exists found,
      collect_image_paths (file_system t select) [raw] = Ok found
      /\ NoDup found
      /\ forall p,
          In p found
          <-> has_image_suffix p = true
              /\ exists rel m,
                  rel <> [] /\ lookup (Dir entries) rel = Some m
                  /\ p = parse raw ++ rel.
Proof.
  intros t select raw entries Hres Hd.
  exists (filter has_image_suffix
            (map (app (parse raw)) (traverse_sorted (Dir entries)))).
  split; [|split].
  - rewrite collect_image_paths_single. unfold collect_one.
    cbn [is_file is_dir rglob_star file_system of_lib]. rewrite Hres.
    cbn [andb]. now rewrite (sorted_descendants _ _ Hd).
  - apply NoDup_filter, NoDup_map_prefix.
    apply increasing_NoDup. now apply traverse_sorted_increasing.
  - intros p. rewrite filter_In, in_map_iff. split.
    + intros [(rel & <- & Hrel) Hs]. split; [exact Hs|].
      apply (Permutation_in _ (Permutation_sym (traverse_sorted_perm _)))
        in Hrel.
      apply (descendants_lookup _ Hd) in Hrel.
      destruct Hrel as [Hne [m Hm]]. now exists rel, m.
    + intros [Hs (rel & m & Hne & Hm & ->)]. split; [|exact Hs].
      exists rel. split; [reflexivity|].
      apply (Permutation_in _ (traverse_sorted_perm _)).
      apply (descendants_lookup _ Hd). split; [exact Hne | now exists m].
Qed.

Lemma directory_input_collects_every_match_once_witness :
  exists found,
    collect_image_paths Sample.file_system ["d"] = Ok found
    /\ NoDup found
    /\ forall p,
        In p found
        <-> has_image_suffix p = true
            /\ exists rel m,
                rel <> []
                /\ lookup
                     (Dir [("a.png", File);
                           ("b.txt", File);
                           ("a", Dir [(".h.png", File); ("x.png", File)]);
                           ("B.PNG", File);
                           ("x.png", Dir [])]) rel = Some m
                /\ p = parse "d" ++ rel.
Proof.
  exact (@directory_input_collects_every_match_once Sample.tree Sample.select
           "d" _ eq_refl eq_refl).
Defined.

Lemma anchored_parse_nonempty raw :
  anchored (parse raw) = true -> truthy raw = true.
Proof. destruct raw; [discriminate | reflexivity]. Qed.

(** X8. An input with a root ("/...") that is neither an image file nor a
    directory is handed to [Path().glob], which refuses it: the whole
    collection ends with [NotImplementedError], whatever the other inputs
    found. *)
Theorem rooted_input_without_image_or_directory_raises :
  forall fs before raw after file,
    (forall e, collect_image_paths fs before <> Raise e) ->
    anchored (parse raw) = true ->
    is_dir fs (parse raw) = Done false ->
    is_file fs (parse raw) = Done file ->
    file && has_image_suffix (parse raw) = false ->
    collect_image_paths fs (before ++ raw :: after)
    = Raise (LibraryError "NotImplementedError"
               "Non-relative patterns are unsupported").
Proof.
  intros fs0 before raw after file Hbefore Hroot Hdir Hfile Himage.
  rewrite collect_image_paths_app.
  destruct (collect_image_paths fs0 before) as [found|e];
    [|now elim (Hbefore e)].
  unfold collect_image_paths at 1. cbn [collect_loop].
  unfold collect_one. rewrite Hfile. cbn [of_lib]. rewrite Himage, Hdir.
  cbn [of_lib]. unfold glob.
  rewrite (anchored_parse_nonempty raw Hroot), Hroot. reflexivity.
Qed.

Lemma rooted_input_without_image_or_directory_raises_witness :
  collect_image_paths Sample.file_system
    (["d"] ++ "/w/notes.txt" :: ["d/a.png"])
  = Raise (LibraryError "NotImplementedError"
             "Non-relative patterns are unsupported").
Proof.
  apply (@rooted_input_without_image_or_directory_raises Sample.file_system
           ["d"] "/w/notes.txt" ["d/a.png"] true).
  - intros e. discriminate.
  - reflexivity.
  - reflexivity.
  - reflexivity.
  - reflexivity.
Defined.

(** *** Which names are recognized *)

Lemma slice_from_split n :
  forall s,
    exists stem,
      s = (stem ++ slice_from n s)%string
      /\ (n <= String.length s -> String.length stem = n).
Proof.
  induction n as [|n IH]; intros s.
  - exists "". split; reflexivity.
  - destruct s as [|c r]; simpl.
    + exists "". split; [reflexivity | lia].
    + destruct (IH r) as (stem & Heq & Hlen).
      exists (String c stem). simpl. split; [now rewrite <- Heq|].
      intros H. rewrite Hlen; lia.
Qed.

Lemma slice_from_app a b : slice_from (String.length a) (a ++ b) = b.
Proof. induction a as [|c a IH]; simpl; auto. Qed.

Lemma string_length_app a b :
  String.length (a ++ b) = String.length a + String.length b.
Proof. induction a as [|c a IH]; simpl; auto. Qed.

Lemma rfind_from_absent c s :
  (forall d, In d (list_ascii_of_string s) -> d <> c) ->
  forall pos found, rfind_from s c pos found = found.
Proof.
  induction s as [|d s IH]; simpl; auto. intros H pos found.
  rewrite IH by (intros; apply H; auto).
  destruct (Ascii.eqb_spec d c) as [->|]; auto.
  elim (H c); auto.
Qed.

Lemma rfind_from_last c a b :
  (forall d, In d (list_ascii_of_string b) -> d <> c) ->
  forall pos found,
    rfind_from (a ++ String c b) c pos found
    = (pos + Z.of_nat (String.length a))%Z.
Proof.
  intros Hb. induction a as [|d a IH]; intros pos found; simpl.
  - rewrite Ascii.eqb_refl, (@rfind_from_absent c b Hb). lia.
  - rewrite IH. lia.
Qed.

Lemma lower_char_dot c : lower_char c = "."%char <-> c = "."%char.
Proof.
  destruct c as [[] [] [] [] [] [] [] []]; vm_compute; split; congruence.
Qed.

Lemma dot_free_lower b : dot_free (lower b) -> dot_free b.
Proof.
  unfold dot_free. induction b as [|c b IH]; simpl; [intros _ ? []|].
  intros H d [<- | Hd].
  - intros ->. apply (H "."%char); auto.
  - apply IH; auto.
Qed.

Lemma image_extension_shape e :
  In e IMAGE_EXTENSIONS ->
  exists r, e = String "." r /\ r <> "" /\ dot_free r.
Proof.
  unfold IMAGE_EXTENSIONS. simpl.
  intros H; repeat (destruct H as [<- | H]); try contradiction;
    eexists; (split; [reflexivity|]); (split; [discriminate|]);
    intros c Hc; simpl in Hc;
    repeat (destruct Hc as [<- | Hc]); try contradiction; discriminate.
Qed.

Lemma extension_shape ext :
  In (lower ext) IMAGE_EXTENSIONS ->
  exists b, ext = String "." b /\ b <> "" /\ dot_free b.
Proof.
  intros H. destruct (@image_extension_shape _ H) as (r & Heq & Hne & Hfree).
  destruct ext as [|c b]; [discriminate|]. simpl in Heq.
  injection Heq as Hc Hb. apply (proj1 (lower_char_dot c)) in Hc. subst c.
  exists b. split; [reflexivity|]. split.
  - intros ->. now apply Hne.
  - apply dot_free_lower. now rewrite Hb.
Qed.

(** X9. A path is recognized as an image exactly when its last component is
    a non-empty stem followed by one of the six extensions in any letter
    case; a name that is nothing but an extension, such as ".png", or that
    ends in a dot is not recognized. *)
Theorem recognized_by_name_ending :
  forall p,
    has_image_suffix p = true
    <-> exists stem ext,
          name p = (stem ++ ext)%string
          /\ stem <> ""
          /\ In (lower ext) IMAGE_EXTENSIONS.
Proof.
  intros p. unfold has_image_suffix, suffix.
  set (n := name p). split.
  - intros H. apply existsb_exists in H. destruct H as (e & He & Heq).
    apply String.eqb_eq in Heq.
    destruct ((0 <? rfind n ".") && (rfind n "." <? Z.of_nat (String.length n) - 1))%Z
      eqn:Hc.
    + apply andb_prop in Hc. destruct Hc as [H0 H1].
      apply Z.ltb_lt in H0. apply Z.ltb_lt in H1.
      destruct (slice_from_split (Z.to_nat (rfind n ".")) n)
        as (stem & Hsplit & Hlen).
      exists stem, (slice_from (Z.to_nat (rfind n ".")) n).
      split; [exact Hsplit|]. split.
      * intros ->. simpl in Hlen. lia.
      * now rewrite Heq.
    + simpl in Heq. subst e. simpl in He.
      repeat (destruct He as [He | He]; [discriminate|]). contradiction.
  - intros (stem & ext & Hn & Hstem & Hext).
    destruct (@extension_shape ext Hext) as (b & -> & Hb & Hfree).
    assert (Hr : rfind n "." = Z.of_nat (String.length stem)).
    { unfold rfind. rewrite Hn.
      rewrite (@rfind_from_last "." stem b Hfree). lia. }
    rewrite Hr, Hn, string_length_app, Nat2Z.id, slice_from_app.
    replace ((0 <? Z.of_nat (String.length stem))
             && (Z.of_nat (String.length stem)
                 <? Z.of_nat (String.length stem + String.length (String "." b))
                    - 1))%Z
      with true.
    + apply existsb_exists. exists (lower (String "." b)).
      split; [exact Hext | apply String.eqb_refl].
    + symmetry. apply andb_true_intro. split; apply Z.ltb_lt.
      * destruct stem; [congruence | simpl; lia].
      * destruct b; [congruence | simpl; lia].
Qed.

Example dot_png_alone_is_not_recognized :
  has_image_suffix ["d"; ".png"] = false
  /\ has_image_suffix ["d"; "scan.png."] = false
  /\ has_image_suffix ["d"; "scan.tar.JPeG"] = true.
Proof. repeat split; reflexivity. Qed.

(** ** More on the QA splitter *)

(** *** White space around the text and the style of line ends *)

Lemma stripped_lines_stripped text :
  stripped_lines text = stripped (splitlines text).
Proof. reflexivity. Qed.

Lemma splitlines_cons_line c s :
  is_linebreak c = false ->
  splitlines (String c s)
  = String c (hd "" (splitlines s)) :: tl (splitlines s).
Proof. intros H. simpl. rewrite H. now destruct (splitlines s). Qed.

Lemma splitlines_cons_break c s :
  is_linebreak c = true ->
  splitlines (String c s)
  = "" :: match s with
          | String d s' =>
              if Ascii.eqb c CR && Ascii.eqb d LF
              then splitlines s' else splitlines s
          | EmptyString => []
          end.
Proof. intros H. simpl. rewrite H. now destruct s. Qed.

Lemma stripped_cons h t :
  stripped (h :: t)
  = (if truthy (strip h) then [strip h] else []) ++ stripped t.
Proof. unfold stripped. simpl. now destruct (truthy (strip h)). Qed.

Lemma stripped_hd_tl L : stripped (hd "" L :: tl L) = stripped L.
Proof. destruct L; reflexivity. Qed.

Lemma rstrip_cons_nonspace c h :
  isspace c = false -> rstrip (String c h) = String c (rstrip h).
Proof. intros H. rewrite rstrip_cons, H. now destruct (rstrip h). Qed.

Lemma lstrip_rstrip_commute h : rstrip (lstrip h) = lstrip (rstrip h).
Proof.
  induction h as [|c r IH]; [reflexivity|].
  destruct (isspace c) eqn:E.
  - cbn [lstrip]. rewrite E, IH, rstrip_cons, E.
    destruct (rstrip r); [reflexivity|]. cbn [lstrip]. now rewrite E.
  - rewrite (rstrip_cons_nonspace _ _ E). cbn [lstrip]. rewrite E.
    now rewrite (rstrip_cons_nonspace _ _ E).
Qed.

Lemma strip_by_rstrip h h' : rstrip h = rstrip h' -> strip h = strip h'.
Proof.
  intros H. unfold strip. now rewrite !lstrip_rstrip_commute, H.
Qed.

Lemma linebreak_is_space c : is_linebreak c = true -> isspace c = true.
Proof.
  destruct c as [[] [] [] [] [] [] [] []]; vm_compute; congruence.
Qed.

Lemma all_space_strip s : all_space s = true -> strip s = "".
Proof. intros H. unfold strip. now rewrite (lstrip_all_space _ H). Qed.

Lemma rstrip_all_space s : all_space s = true -> rstrip s = "".
Proof.
  unfold all_space. induction s as [|c r IH]; simpl; auto.
  intros H. apply andb_prop in H. destruct H as [Hc Hr].
  now rewrite (IH Hr), Hc.
Qed.

Lemma splitlines_all_space w :
  all_space w = true -> Forall (fun l => all_space l = true) (splitlines w).
Proof.
  intros H. apply Forall_forall. intros l Hl.
  apply forallb_forall. intros c Hc.
  apply (proj1 (forallb_forall _ _) H).
  exact (splitlines_chars_le (n := String.length w) w (le_n _) l c Hl Hc).
Qed.

Lemma stripped_all_space L :
  Forall (fun l => all_space l = true) L -> stripped L = [].
Proof.
  induction 1 as [|l L Hl HL IH]; [reflexivity|].
  now rewrite stripped_cons, (all_space_strip _ Hl), IH.
Qed.

(** A white-space character in front of the text changes no kept line. *)
Lemma stripped_lines_cons_space c s :
  isspace c = true -> stripped_lines (String c s) = stripped_lines s.
Proof.
  intros Hc. rewrite !stripped_lines_stripped.
  destruct (is_linebreak c) eqn:Hb.
  - rewrite (splitlines_cons_break _ _ Hb), stripped_cons. cbn [app].
    destruct s as [|d s']; [reflexivity|]. change (strip "") with "".
    cbn [truthy app].
    destruct (Ascii.eqb c CR && Ascii.eqb d LF) eqn:Em; [|reflexivity].
    apply andb_prop in Em. destruct Em as [_ Ed].
    apply Ascii.eqb_eq in Ed. subst d.
    rewrite (splitlines_cons_break LF s' eq_refl), stripped_cons.
    change (strip "") with "". cbn [truthy app].
    now destruct s'.
  - rewrite (splitlines_cons_line _ _ Hb), stripped_cons.
    rewrite <- (stripped_hd_tl (splitlines s)), (stripped_cons (hd _ _)).
    unfold strip at 1 2. cbn [lstrip]. now rewrite Hc.
Qed.

Lemma stripped_lines_prepend pre s :
  all_space pre = true -> stripped_lines (pre ++ s) = stripped_lines s.
Proof.
  unfold all_space. induction pre as [|c pre IH]; simpl; auto.
  intros H. apply andb_prop in H. destruct H as [Hc Hp].
  rewrite (stripped_lines_cons_space _ _ Hc). auto.
Qed.

(** White space after the text: the first raw line keeps its right-stripped
    form and the other raw lines keep their kept lines. *)
Lemma splitlines_append_le w :
  all_space w = true ->
  forall n s,
    String.length s <= n ->
    rstrip (hd "" (splitlines (s ++ w))) = rstrip (hd "" (splitlines s))
    /\ stripped (tl (splitlines (s ++ w))) = stripped (tl (splitlines s)).
Proof.
  intros Hw.
  assert (Hnone : forall v, all_space v = true ->
            rstrip (hd "" (splitlines v)) = ""
            /\ stripped (tl (splitlines v)) = []
            /\ stripped (splitlines v) = []).
  { intros v Hv. pose proof (splitlines_all_space v Hv) as Hall.
    destruct (splitlines v) as [|l ls]; [repeat split; reflexivity|].
    inversion Hall; subst. repeat split.
    - now apply rstrip_all_space.
    - now apply stripped_all_space.
    - now apply stripped_all_space. }
  assert (Hwhole : forall s,
            rstrip (hd "" (splitlines (s ++ w))) = rstrip (hd "" (splitlines s))
            /\ stripped (tl (splitlines (s ++ w))) = stripped (tl (splitlines s))
            -> stripped (splitlines (s ++ w)) = stripped (splitlines s)).
  { intros s [Hh Ht].
    rewrite <- (stripped_hd_tl (splitlines (s ++ w))).
    rewrite <- (stripped_hd_tl (splitlines s)).
    now rewrite !stripped_cons, Ht, (strip_by_rstrip _ _ Hh). }
  induction n as [|n IH]; intros [|c rest] Hlen; simpl in Hlen; try lia.
  - destruct (Hnone w Hw) as (H1 & H2 & _). auto.
  - destruct (Hnone w Hw) as (H1 & H2 & _). auto.
  - assert (IHrest : String.length rest <= n) by lia.
    change (String c rest ++ w)%string with (String c (rest ++ w)).
    destruct (is_linebreak c) eqn:Hb.
    + destruct rest as [|d rest'].
      * change (String c ("" ++ w)) with (String c w).
        rewrite !(splitlines_cons_break _ _ Hb). cbn [hd tl].
        split; [reflexivity|].
        destruct w as [|d w']; [reflexivity|].
        assert (Hw' : all_space w' = true).
        { unfold all_space in *. simpl in Hw. apply andb_prop in Hw. tauto. }
        destruct (Ascii.eqb c CR && Ascii.eqb d LF).
        -- now destruct (Hnone w' Hw') as (_ & _ & ->).
        -- now destruct (Hnone (String d w') Hw) as (_ & _ & ->).
      * change (String c (String d rest' ++ w))
          with (String c (String d (rest' ++ w))).
        rewrite !(splitlines_cons_break _ _ Hb). cbn [hd tl].
        split; [reflexivity|].
        destruct (Ascii.eqb c CR && Ascii.eqb d LF).
        -- apply Hwhole, IH. simpl in Hlen. lia.
        -- apply (Hwhole (String d rest')), IH. exact IHrest.
    + rewrite !(splitlines_cons_line _ _ Hb). cbn [hd tl].
      destruct (IH rest IHrest) as [Hh Ht]. split; [|exact Ht].
      now rewrite !rstrip_cons, Hh.
Qed.

Lemma stripped_lines_append s w :
  all_space w = true -> stripped_lines (s ++ w) = stripped_lines s.
Proof.
  intros Hw. rewrite !stripped_lines_stripped.
  destruct (@splitlines_append_le w Hw (String.length s) s (le_n _))
    as [Hh Ht].
  rewrite <- (stripped_hd_tl (splitlines (s ++ w))).
  rewrite <- (stripped_hd_tl (splitlines s)).
  now rewrite !stripped_cons, Ht, (strip_by_rstrip _ _ Hh).
Qed.

(** X10. White space around the whole text does not matter: the text with
    any white-space-only string before it and after it (blank lines, a
    final newline or form feed) splits exactly as the text itself. *)
Theorem split_ignores_surrounding_white_space :
  forall pre text post,
    all_space pre = true ->
    all_space post = true ->
    split_question_answer (pre ++ text ++ post) = split_question_answer text.
Proof.
  intros pre text post Hpre Hpost. unfold split_question_answer.
  now rewrite (stripped_lines_prepend pre _ Hpre),
    (stripped_lines_append text post Hpost).
Qed.

Lemma split_ignores_surrounding_white_space_witness :
  split_question_answer
    ((" " ++ String LF "") ++ ("What is 2+2?" ++ String LF "Answer: 4")
       ++ String LF (String (ascii_of_nat 12) ""))
  = split_question_answer ("What is 2+2?" ++ String LF "Answer: 4").
Proof.
  exact (@split_ignores_surrounding_white_space
           (" " ++ String LF "")
           ("What is 2+2?" ++ String LF "Answer: 4")
           (String LF (String (ascii_of_nat 12) ""))
           eq_refl eq_refl).
Defined.

Lemma to_crlf_head s :
  match to_crlf s with
  | String d _ => Ascii.eqb d LF = false
  | EmptyString => True
  end.
Proof.
  destruct s as [|c r]; simpl; auto.
  destruct (Ascii.eqb c LF) eqn:E; [reflexivity | exact E].
Qed.

Lemma splitlines_break_to_crlf c r :
  is_linebreak c = true ->
  splitlines (String c (to_crlf r)) = "" :: splitlines (to_crlf r).
Proof.
  intros Hb. rewrite (splitlines_cons_break _ _ Hb).
  pose proof (to_crlf_head r) as Hh.
  destruct (to_crlf r) as [|d r'']; [reflexivity|].
  now rewrite Hh, andb_false_r.
Qed.

(** Writing LF as CR LF: the first raw line stays and the other raw lines
    keep their kept lines. *)
Lemma splitlines_to_crlf_le n :
  forall s,
    String.length s <= n ->
    hd "" (splitlines (to_crlf s)) = hd "" (splitlines s)
    /\ stripped (tl (splitlines (to_crlf s))) = stripped (tl (splitlines s)).
Proof.
  assert (Hwhole : forall s,
            hd "" (splitlines (to_crlf s)) = hd "" (splitlines s)
            /\ stripped (tl (splitlines (to_crlf s)))
               = stripped (tl (splitlines s))
            -> stripped (splitlines (to_crlf s)) = stripped (splitlines s)).
  { intros s [Hh Ht].
    rewrite <- (stripped_hd_tl (splitlines (to_crlf s))).
    rewrite <- (stripped_hd_tl (splitlines s)).
    now rewrite !stripped_cons, Ht, Hh. }
  induction n as [|n IH]; intros [|c rest] Hlen; simpl in Hlen; try lia;
    try (split; reflexivity).
  assert (IHrest : String.length rest <= n) by lia.
  cbn [to_crlf]. destruct (Ascii.eqb_spec c LF) as [->|Hlf].
  - rewrite (splitlines_cons_break CR _ eq_refl).
    rewrite (splitlines_cons_break LF rest eq_refl).
    cbn [Ascii.eqb andb hd tl].
    change (Ascii.eqb CR CR && Ascii.eqb LF LF) with true. cbv iota.
    split; [reflexivity|].
    rewrite (Hwhole rest (IH rest IHrest)).
    destruct rest as [|d rest']; reflexivity.
  - destruct (is_linebreak c) eqn:Hb.
    + rewrite (splitlines_break_to_crlf _ _ Hb).
      rewrite (splitlines_cons_break _ _ Hb). cbn [hd tl].
      split; [reflexivity|].
      destruct rest as [|d rest']; [reflexivity|].
      destruct (Ascii.eqb c CR && Ascii.eqb d LF) eqn:Em.
      * apply andb_prop in Em. destruct Em as [_ Ed].
        apply Ascii.eqb_eq in Ed. subst d.
        cbn [to_crlf]. rewrite Ascii.eqb_refl.
        rewrite (splitlines_cons_break CR _ eq_refl).
        change (Ascii.eqb CR CR && Ascii.eqb LF LF) with true. cbv iota.
        rewrite stripped_cons. change (strip "") with "". cbn [truthy app].
        apply Hwhole, IH. simpl in Hlen. lia.
      * apply (Hwhole (String d rest')), IH. exact IHrest.
    + rewrite !(splitlines_cons_line _ _ Hb). cbn [hd tl].
      destruct (IH rest IHrest) as [Hh Ht]. now rewrite Hh, Ht.
Qed.

(** X11. The style of the line ends does not matter: the text with every
    LF written as CR LF splits exactly as the text itself. *)
Theorem split_ignores_line_end_style :
  forall text,
    split_question_answer (to_crlf text) = split_question_answer text.
Proof.
  intros text. unfold split_question_answer.
  rewrite !stripped_lines_stripped.
  destruct (splitlines_to_crlf_le (n := String.length text) text (le_n _))
    as [Hh Ht].
  rewrite <- (stripped_hd_tl (splitlines (to_crlf text))).
  rewrite <- (stripped_hd_tl (splitlines text)).
  now rewrite !stripped_cons, Ht, Hh.
Qed.

(** *** When a part of the result is empty *)

Lemma answer_loop_inv lines :
  forall rest idx result,
    answer_loop lines idx (map lower rest) = Some result ->
    exists k marker,
      k < List.length rest
      /\ no_marker_line answer_markers (firstn k rest) = true
      /\ find (starts_ci (nth k rest "")) answer_markers = Some marker
      /\ result = answer_split lines (idx + k) marker.
Proof.
  induction rest as [|l rest IH]; intros idx result; cbn [map answer_loop].
  - discriminate.
  - rewrite first_marker_find.
    destruct (find (starts_ci l) answer_markers) as [marker|] eqn:Ef.
    + intros H. inversion H; subst. exists 0, marker.
      rewrite Nat.add_0_r. repeat split; simpl; auto; lia.
    + intros H. destruct (IH _ _ H) as (k & marker & Hk & Hb & Hf & ->).
      exists (S k), marker. rewrite Nat.add_succ_r.
      repeat split; simpl; auto; try lia.
      cbn [no_marker_line forallb] in *. rewrite Hb, andb_true_r.
      apply negb_true_iff. unfold matches_any.
      destruct (existsb (starts_ci l) answer_markers) eqn:Ee; auto.
      apply existsb_exists in Ee. destruct Ee as (m & Hm & Hs).
      now rewrite (find_none _ _ Ef m Hm) in Hs.
Qed.

Lemma answer_loop_none_inv lines :
  forall rest idx,
    answer_loop lines idx (map lower rest) = None ->
    no_marker_line answer_markers rest = true.
Proof.
  induction rest as [|l rest IH]; intros idx; cbn [map answer_loop].
  - reflexivity.
  - rewrite first_marker_find.
    destruct (find (starts_ci l) answer_markers) as [marker|] eqn:Ef;
      [discriminate|].
    intros H. cbn [no_marker_line forallb].
    fold (no_marker_line answer_markers rest). rewrite (IH _ H), andb_true_r.
    apply negb_true_iff. unfold matches_any.
    destruct (existsb (starts_ci l) answer_markers) eqn:Ee; auto.
    apply existsb_exists in Ee. destruct Ee as (m & Hm & Hs).
    now rewrite (find_none _ _ Ef m Hm) in Hs.
Qed.

Lemma join_kept_nonempty ls :
  Forall kept_line ls -> ls <> [] -> strip (join " " ls) <> "".
Proof.
  intros H Hne. rewrite (strip_join_kept H).
  now destruct (join_kept H Hne) as (Hn & _).
Qed.

Lemma question_loop_nonempty markers line :
  line <> "" -> question_loop markers line <> "".
Proof.
  intros Hl. rewrite question_loop_find.
  destruct (find (starts_ci line) markers); auto. cbv zeta.
  destruct (truthy _) eqn:E; auto. now apply truthy_true.
Qed.

(** X12. The question comes back empty in exactly two cases: the text has
    no kept line, or its first kept line starts with an answer marker. *)
Theorem question_empty_iff :
  forall text,
    fst (split_question_answer text) = ""
    <-> match stripped_lines text with
        | [] => True
        | first :: _ => matches_any answer_markers first = true
        end.
Proof.
  intros text. unfold split_question_answer.
  pose proof (stripped_lines_kept text) as Hk.
  destruct (stripped_lines text) as [|l ls]; [tauto|].
  set (lines := l :: ls) in *.
  destruct (answer_loop lines 0 (map lower lines)) as [result|] eqn:El.
  - apply answer_loop_inv in El.
    destruct El as (k & marker & Hlt & Hb & Hf & ->).
    unfold answer_split. cbn [fst Nat.add].
    destruct k as [|k].
    + subst lines. cbn [firstn nth] in *. split; [intros _ | reflexivity].
      unfold matches_any. apply find_some in Hf.
      apply existsb_exists. now exists marker.
    + cbn [firstn no_marker_line forallb] in Hb. subst lines.
      apply andb_prop in Hb. destruct Hb as [Hl _].
      apply negb_true_iff in Hl. rewrite Hl. split; [|discriminate].
      intros H. exfalso. revert H. apply join_kept_nonempty.
      * now apply Forall_firstn_of.
      * discriminate.
  - apply answer_loop_none_inv in El. subst lines.
    cbn [no_marker_line forallb] in El. apply andb_prop in El.
    destruct El as [Hl _]. apply negb_true_iff in Hl. rewrite Hl.
    inversion Hk as [|? ? (Hne & _) _]; subst.
    split; [|discriminate]. intros H. exfalso. revert H.
    destruct (1 <? List.length (l :: ls))%nat; cbn [fst]; auto.
    now apply question_loop_nonempty.
Qed.

(** X13. The answer comes back empty in exactly two cases: no answer marker
    is found and there is at most one kept line; or the first line with an
    answer marker is the last kept line and nothing but white space follows
    the marker on it. *)
Theorem answer_empty_iff :
  forall text,
    snd (split_question_answer text) = ""
    <-> (no_marker_line answer_markers (stripped_lines text) = true
         /\ List.length (stripped_lines text) <= 1)
        \/ (exists i marker,
               no_marker_line answer_markers
                 (firstn i (stripped_lines text)) = true
               /\ find (starts_ci (nth i (stripped_lines text) ""))
                    answer_markers = Some marker
               /\ S i = List.length (stripped_lines text)
               /\ strip (slice_from (String.length marker)
                           (nth i (stripped_lines text) "")) = "").
Proof.
  intros text. unfold split_question_answer.
  pose proof (stripped_lines_kept text) as Hk.
  destruct (stripped_lines text) as [|l ls].
  { split; [|reflexivity]. intros _. left.
    split; [reflexivity | simpl; lia]. }
  set (lines := l :: ls) in *.
  split.
  - destruct (answer_loop lines 0 (map lower lines)) as [result|] eqn:El.
    + apply answer_loop_inv in El.
      destruct El as (k & marker & Hlt & Hb & Hf & ->).
      unfold answer_split. cbn [snd Nat.add]. intros H. right.
      exists k, marker. split; [exact Hb|]. split; [exact Hf|].
      destruct (truthy (strip (slice_from (String.length marker)
                                 (nth k lines "")))) eqn:Et.
      * exfalso. revert H. apply join_kept_nonempty; [|discriminate].
        apply Forall_app. split; [|now apply Forall_skipn_of].
        constructor; [|constructor]. repeat split.
        -- now apply truthy_true.
        -- apply head_ok_strip.
        -- apply last_ok_strip.
      * apply truthy_false in Et. split; [|exact Et].
        destruct (skipn (S k) lines) as [|x xs] eqn:Es.
        -- assert (Hlen : List.length (skipn (S k) lines) = 0)
             by now rewrite Es.
           rewrite length_skipn in Hlen. lia.
        -- exfalso. revert H. cbn [app].
           apply join_kept_nonempty; [|discriminate].
           rewrite <- Es. now apply Forall_skipn_of.
    + apply answer_loop_none_inv in El. intros H. left.
      split; [exact El|]. subst lines.
      destruct ls as [|l2 ls']; [simpl; lia|]. exfalso. revert H.
      change (1 <? List.length (l :: l2 :: ls'))%nat with true. cbn [snd].
      apply join_kept_nonempty; [|discriminate].
      now inversion Hk.
  - intros [[Hnone Hlen] | (i & marker & Hb & Hf & Hlast & Hbare)].
    + rewrite (answer_loop_miss _ _ 0 Hnone). subst lines.
      destruct ls; [reflexivity | simpl in Hlen; lia].
    + rewrite (answer_loop_hit lines lines i 0 Hb Hf).
      unfold answer_split. cbn [snd Nat.add]. rewrite Hbare.
      cbn [truthy app]. rewrite Hlast, skipn_all. reflexivity.
Qed.

(** *** Where the characters of the result come from *)

Lemma chars_in_nil P : chars_in P "".
Proof. intros c []. Qed.

Lemma chars_in_cons P c r :
  chars_in P (String c r) <-> P c /\ chars_in P r.
Proof.
  unfold chars_in; simpl; split.
  - intros H; split; [apply H; auto | intros d Hd; apply H; auto].
  - intros [Hc Hr] d [<- | Hd]; auto.
Qed.

Lemma chars_in_app P a b :
  chars_in P a -> chars_in P b -> chars_in P (a ++ b).
Proof.
  induction a as [|c r IH]; simpl; auto.
  rewrite !chars_in_cons. intros [Hc Hr] Hb; auto.
Qed.

Lemma chars_in_lstrip P s : chars_in P s -> chars_in P (lstrip s).
Proof.
  induction s as [|c r IH]; simpl; auto.
  intros H. destruct (isspace c); auto.
  apply IH. now apply chars_in_cons in H.
Qed.

Lemma chars_in_rstrip P s : chars_in P s -> chars_in P (rstrip s).
Proof.
  induction s as [|c r IH]; auto.
  rewrite rstrip_cons, chars_in_cons. intros [Hc Hr].
  specialize (IH Hr). destruct (rstrip r).
  - destruct (isspace c); [apply chars_in_nil|].
    apply chars_in_cons; split; [exact Hc | apply chars_in_nil].
  - apply chars_in_cons; auto.
Qed.

Lemma chars_in_strip P s : chars_in P s -> chars_in P (strip s).
Proof. intros H. apply chars_in_rstrip, chars_in_lstrip, H. Qed.

Lemma chars_in_slice_from P n s :
  chars_in P s -> chars_in P (slice_from n s).
Proof.
  revert s; induction n as [|n IH]; intros [|c r]; simpl; auto.
  intros H. apply IH. now apply chars_in_cons in H.
Qed.

Lemma chars_in_join (P : ascii -> Prop) ls :
  P " "%char -> Forall (chars_in P) ls -> chars_in P (join " " ls).
Proof.
  intros Hsp. induction 1 as [|x xs Hx Hxs IH]; [apply chars_in_nil|].
  destruct xs as [|y ys]; [exact Hx|].
  rewrite join_cons. apply chars_in_app; auto.
  apply chars_in_app; auto.
  apply chars_in_cons; split; [exact Hsp | apply chars_in_nil].
Qed.

Lemma stripped_lines_chars text :
  Forall (chars_in (fun c => In c (list_ascii_of_string text)))
    (stripped_lines text).
Proof.
  unfold stripped_lines. apply Forall_forall. intros l Hl.
  apply in_map_iff in Hl. destruct Hl as (l0 & <- & Hin).
  apply filter_In in Hin. destruct Hin as (Hin & _).
  apply chars_in_strip. intros c Hc.
  exact (splitlines_chars_le (n := String.length text) text (le_n _)
           l0 c Hin Hc).
Qed.

(** X14. The splitter invents nothing: every character of the question and
    of the answer is a character of the text or the single space that joins
    two lines. *)
Theorem split_result_characters_from_text :
  forall text c,
    In c (list_ascii_of_string (fst (split_question_answer text)))
    \/ In c (list_ascii_of_string (snd (split_question_answer text))) ->
    In c (list_ascii_of_string text) \/ c = " "%char.
Proof.
  intros text.
  set (P := fun c => In c (list_ascii_of_string text) \/ c = " "%char).
  assert (Hboth : chars_in P (fst (split_question_answer text))
                  /\ chars_in P (snd (split_question_answer text))).
  { assert (Hsp : P " "%char) by (now right).
    assert (Hl : Forall (chars_in P) (stripped_lines text)).
    { eapply Forall_impl; [|apply stripped_lines_chars].
      intros l H c Hc. left. now apply H. }
    unfold split_question_answer.
    destruct (stripped_lines text) as [|line0 others].
    { split; apply chars_in_nil. }
    set (lines := line0 :: others) in *.
    assert (Hnth : forall k, chars_in P (nth k lines "")).
    { intros k. destruct (Nat.lt_ge_cases k (List.length lines)) as [Hlt|Hge].
      - apply (proj1 (Forall_forall _ _) Hl). now apply nth_In.
      - rewrite nth_overflow by exact Hge. apply chars_in_nil. }
    destruct (answer_loop lines 0 (map lower lines)) as [result|] eqn:El.
    - apply answer_loop_result in El. destruct El as (k & marker & ->).
      unfold answer_split. cbn [fst snd].
      split; apply chars_in_strip, chars_in_join; auto.
      + now apply Forall_firstn_of.
      + apply Forall_app. split; [|now apply Forall_skipn_of].
        destruct (truthy _); constructor; auto.
        apply chars_in_strip, chars_in_slice_from, Hnth.
    - inversion Hl as [|? ? Hl0 Hlo]; subst.
      destruct (1 <? List.length lines)%nat; cbn [fst snd].
      + split.
        * rewrite question_loop_find. destruct (find _ _); auto.
          cbv zeta. destruct (truthy _); auto.
          now apply chars_in_strip, chars_in_slice_from.
        * now apply chars_in_strip, chars_in_join.
      + split; [exact Hl0 | apply chars_in_nil]. }
  intros c [H | H]; [apply (proj1 Hboth) | apply (proj2 Hboth)]; exact H.
Qed.

Lemma split_result_characters_from_text_witness :
  In "4"%char
    (list_ascii_of_string ("What is 2+2?" ++ String LF "ANSWER: 4"))
  \/ "4"%char = " "%char.
Proof.
  apply (split_result_characters_from_text
           ("What is 2+2?" ++ String LF "ANSWER: 4")%string "4"%char).
  right. simpl. auto.
Defined.
